(** * Bookings report for a transportation operator (src/solution.py)

    Shallow embedding of the data model (Service, Station, Leg, OD,
    Passenger) and of its operations: [load_itinerary],
    [load_passenger_manifest], [OD.legs], [Leg.passengers], [OD.history]
    and [OD.forecast].

    Modelling choices:
    - [Station] objects compare by identity (no [__eq__]): a station is its
      object id, a [nat].
    - A [Leg] object also compares by identity: it carries its object id,
      allocated from a counter held by the service.
    - [Service.ods] is a Python dict: an association list in insertion order;
      assigning an existing key replaces the value in place, a new key is
      appended at the end.
    - Prices are integer valued (as in the example data), so revenue is a [Z].
    - [pricing] and each day's [demand] are [int -> int] dicts: association
      lists with distinct keys, iterated in insertion order.  [demand[price]]
      on a missing key raises [KeyError], modelled as [None]. *)

From Stdlib Require Import List ZArith Lia Bool Arith Permutation Sorted.
Import ListNotations.
Open Scope Z_scope.

(** ** Data model *)

Definition Station := nat.

Record Passenger := mkPassenger {
  p_origin : Station;
  p_destination : Station;
  sale_day_x : Z;
  price : Z
}.

Record Leg := mkLeg {
  leg_id : nat;            (* object identity *)
  leg_origin : Station;
  leg_destination : Station
}.

Record OD := mkOD {
  od_origin : Station;
  od_destination : Station;
  od_passengers : list Passenger
}.

Definition Key := (Station * Station)%type.

Definition key_eqb (a b : Key) : bool :=
  Nat.eqb (fst a) (fst b) && Nat.eqb (snd a) (snd b).

Record Service := mkService {
  svc_legs : list Leg;
  svc_ods : list (Key * OD);
  svc_next_id : nat        (* allocator of fresh Leg object ids *)
}.

(** [Service(name, departure_date)]: no legs, no ODs. *)
Definition new_service : Service := mkService [] [] 0.

(** ** Python dict [Service.ods] *)

Fixpoint ods_get (k : Key) (m : list (Key * OD)) : option OD :=
  match m with
  | [] => None
  | (k', v) :: m' => if key_eqb k k' then Some v else ods_get k m'
  end.

(** [d[k] = v]: replace in place, or append a new key at the end. *)
Fixpoint ods_set (k : Key) (v : OD) (m : list (Key * OD)) : list (Key * OD) :=
  match m with
  | [] => [(k, v)]
  | (k', v') :: m' => if key_eqb k k' then (k', v) :: m' else (k', v') :: ods_set k v m'
  end.

(** ** [Service.load_itinerary] *)

Fixpoint enumerate_from {A} (i : nat) (l : list A) : list (nat * A) :=
  match l with
  | [] => []
  | x :: l' => (i, x) :: enumerate_from (S i) l'
  end.

Definition enumerate {A} (l : list A) := enumerate_from 0%nat l.

(** The body of [for i, station in enumerate(itinerary)]. *)
Definition load_itinerary_step (itinerary : list Station) (s : Service)
    (ist : nat * Station) : Service :=
  let (i, station) := ist in
  if Nat.eqb i 0 then s
  else
    (* for prev in islice(itinerary, i): self.ods[(prev, station)] = OD(...) *)
    let ods := fold_left
                 (fun m prev => ods_set (prev, station) (mkOD prev station []) m)
                 (firstn i itinerary) (svc_ods s) in
    (* prev == itinerary[i - 1] *)
    let prev := last (firstn i itinerary) station in
    mkService (svc_legs s ++ [mkLeg (svc_next_id s) prev station]) ods
              (S (svc_next_id s)).

Definition load_itinerary (s : Service) (itinerary : list Station) : Service :=
  fold_left (load_itinerary_step itinerary) (enumerate itinerary) s.

(** ** [Service.load_passenger_manifest] *)

Inductive Exn := KeyError (k : Key).

Definition passenger_key (p : Passenger) : Key := (p_origin p, p_destination p).

(** The final state together with the exception that escaped, if any:
    mutations done before the exception remain. *)
Fixpoint load_passenger_manifest (s : Service) (passengers : list Passenger)
    : Service * option Exn :=
  match passengers with
  | [] => (s, None)
  | passenger :: rest =>
      let k := passenger_key passenger in
      match ods_get k (svc_ods s) with
      | None => (s, Some (KeyError k))
      | Some od =>
          (* od.passengers.append(passenger) *)
          let od' := mkOD (od_origin od) (od_destination od)
                          (od_passengers od ++ [passenger]) in
          load_passenger_manifest
            (mkService (svc_legs s) (ods_set k od' (svc_ods s)) (svc_next_id s)) rest
      end
  end.

(** ** [OD._legs] / [OD.legs] *)

(** Second loop: [for leg in legs: if leg.origin == destination: break; yield leg]. *)
Fixpoint legs_until (destination : Station) (legs : list Leg) : list Leg :=
  match legs with
  | [] => []
  | leg :: rest =>
      if Nat.eqb (leg_origin leg) destination then []
      else leg :: legs_until destination rest
  end.

(** First loop: the first leg whose origin is the OD's origin is yielded,
    the rest of the same iterator feeds the second loop. *)
Fixpoint od_legs_from (origin destination : Station) (legs : list Leg) : list Leg :=
  match legs with
  | [] => []
  | leg :: rest =>
      if Nat.eqb (leg_origin leg) origin then leg :: legs_until destination rest
      else od_legs_from origin destination rest
  end.

Definition od_legs (s : Service) (od : OD) : list Leg :=
  od_legs_from (od_origin od) (od_destination od) (svc_legs s).

(** ** [Leg.passengers] *)

(** [leg in od.legs]: identity comparison. *)
Definition leg_in (leg : Leg) (legs : list Leg) : bool :=
  existsb (fun l => Nat.eqb (leg_id l) (leg_id leg)) legs.

Fixpoint leg_passengers_loop (s : Service) (leg : Leg) (ods : list (Key * OD))
    : list Passenger :=
  match ods with
  | [] => []
  | (_, od) :: rest =>
      if negb (leg_in leg (od_legs s od)) then leg_passengers_loop s leg rest
      else od_passengers od ++ leg_passengers_loop s leg rest
  end.

Definition leg_passengers (s : Service) (leg : Leg) : list Passenger :=
  leg_passengers_loop s leg (svc_ods s).

(** ** [OD._history] / [OD.history] *)

(** [sorted(passengers, key=lambda p: p.sale_day_x)]: a stable sort. *)
Fixpoint insert_by_day (p : Passenger) (l : list Passenger) : list Passenger :=
  match l with
  | [] => [p]
  | q :: l' => if sale_day_x p <=? sale_day_x q then p :: q :: l'
               else q :: insert_by_day p l'
  end.

Fixpoint sort_by_day (l : list Passenger) : list Passenger :=
  match l with
  | [] => []
  | p :: l' => insert_by_day p (sort_by_day l')
  end.

(** [itertools.groupby(passengers, lambda p: p.sale_day_x)]. *)
Fixpoint groupby_day (l : list Passenger) : list (Z * list Passenger) :=
  match l with
  | [] => []
  | p :: l' =>
      match groupby_day l' with
      | (k, g) :: gs =>
          if sale_day_x p =? k then (k, p :: g) :: gs
          else (sale_day_x p, [p]) :: (k, g) :: gs
      | [] => [(sale_day_x p, [p])]
      end
  end.

(** [for passenger in passengers: head_count += 1; wallet += passenger.price] *)
Definition add_group (acc : Z * Z) (g : list Passenger) : Z * Z :=
  fold_left (fun '(head_count, wallet) p => (head_count + 1, wallet + price p)) g acc.

Fixpoint history_loop (acc : Z * Z) (groups : list (Z * list Passenger))
    : list (Z * Z * Z) :=
  match groups with
  | [] => []
  | (day_x, g) :: rest =>
      let acc' := add_group acc g in
      (day_x, fst acc', snd acc') :: history_loop acc' rest
  end.

Definition history (od : OD) : list (Z * Z * Z) :=
  history_loop (0, 0) (groupby_day (sort_by_day (od_passengers od))).

(** ** [OD.forecast] *)

Definition Pricing := list (Z * Z).

Fixpoint dict_get (k : Z) (m : list (Z * Z)) : option Z :=
  match m with
  | [] => None
  | (k', v) :: m' => if k =? k' then Some v else dict_get k m'
  end.

Notation "'let*' ' x := e 'in' f" :=
  (match e with Some x => f | None => None end)
  (at level 200, x pattern at level 0, e at level 100, f at level 200).

(** The inner loop [for price, count in pricing.items()] of one day:
    returns the day's [sold], the new [money], and [pricing] after the
    in-place updates [pricing[price] -= _sold] (the keys are distinct, so
    the update hits the entry being visited). *)
Fixpoint forecast_day (demand : list (Z * Z)) (sold money : Z) (pricing : Pricing)
    : option (Z * Z * Pricing) :=
  match pricing with
  | [] => Some (sold, money, [])
  | (price, count) :: rest =>
      let* 'd := dict_get price demand in
      let sold_ := Z.min (d - sold) count in
      if sold_ <=? 0 then
        let* '(sold', money', rest') := forecast_day demand sold money rest in
        Some (sold', money', (price, count) :: rest')
      else
        let* '(sold', money', rest') :=
          forecast_day demand (sold + sold_) (money + price * sold_) rest in
        Some (sold', money', (price, count - sold_) :: rest')
  end.

(** The outer loop [for day, demand in demand_matrix.items()]: the list of
    yielded triplets and the final state of the caller's [pricing]. *)
Fixpoint forecast_loop (head_count money : Z) (pricing : Pricing)
    (demand_matrix : list (Z * list (Z * Z)))
    : option (list (Z * Z * Z) * Pricing) :=
  match demand_matrix with
  | [] => Some ([], pricing)
  | (day, demand) :: rest =>
      let* '(sold, money', pricing') := forecast_day demand 0 money pricing in
      let head_count' := head_count + sold in
      let* '(out, pricing'') := forecast_loop head_count' money' pricing' rest in
      Some ((day, head_count', money') :: out, pricing'')
  end.

Definition sum_prices (ps : list Passenger) : Z :=
  fold_left (fun acc p => acc + price p) ps 0.

(** [forecast] only writes to [pricing]; the OD and the demand matrix are
    inputs only. *)
Definition forecast (od : OD) (pricing : Pricing)
    (demand_matrix : list (Z * list (Z * Z))) : option (list (Z * Z * Z) * Pricing) :=
  let money := sum_prices (od_passengers od) in
  let head_count := Z.of_nat (length (od_passengers od)) in
  forecast_loop head_count money pricing demand_matrix.

(** ** The example data at the bottom of src/solution.py *)

Definition ply : Station := 0%nat.
Definition lpd : Station := 1%nat.
Definition msc : Station := 2%nat.

Definition example_service : Service := load_itinerary new_service [ply; lpd; msc].

Definition example_manifest : list Passenger :=
  [ mkPassenger ply lpd (-30) 20; mkPassenger ply lpd (-25) 30;
    mkPassenger ply lpd (-20) 40; mkPassenger ply lpd (-20) 40;
    mkPassenger ply msc (-10) 50 ].

Definition example_loaded : Service :=
  fst (load_passenger_manifest example_service example_manifest).

Definition example_pricing : Pricing := [(10, 0); (20, 2); (30, 5); (40, 5); (50, 5)].

Definition example_demand_matrix : list (Z * list (Z * Z)) :=
  [ (-7, [(10, 5); (20, 1); (30, 0); (40, 0); (50, 0)]);
    (-6, [(10, 5); (20, 2); (30, 1); (40, 1); (50, 1)]);
    (-5, [(10, 5); (20, 4); (30, 3); (40, 2); (50, 1)]);
    (-4, [(10, 5); (20, 5); (30, 4); (40, 3); (50, 1)]);
    (-3, [(10, 5); (20, 5); (30, 5); (40, 3); (50, 2)]);
    (-2, [(10, 5); (20, 5); (30, 5); (40, 4); (50, 3)]);
    (-1, [(10, 5); (20, 5); (30, 5); (40, 5); (50, 4)]);
    (0, [(10, 5); (20, 5); (30, 5); (40, 5); (50, 5)]) ].

(** ** Auxiliary definitions used in the statements *)

Definition example_itinerary4 : list Station := [0; 1; 2; 3]%nat.

Definition example_service4 : Service := load_itinerary new_service example_itinerary4.

Definition leg_ends (l : Leg) : Station * Station := (leg_origin l, leg_destination l).

Definition sum_lengths (ods : list OD) : nat :=
  fold_right (fun od n => (length (od_passengers od) + n)%nat) 0%nat ods.

(** The forecast of §4.5 of the spec, rule by rule: at price [p] with
    [count] seats, [want = demand[p] - sold], [fill = min(want, count)];
    a level with [fill <= 0] is skipped and the scan goes on; otherwise
    [pricing[p]] loses [fill], [sold] gains [fill], [money] gains [p * fill]. *)
Inductive day_scan_spec (demand : list (Z * Z))
  : Z -> Z -> Pricing -> Z -> Z -> Pricing -> Prop :=
| scan_done sold money :
    day_scan_spec demand sold money [] sold money []
| scan_skip p count rest dp sold money sold' money' rest' :
    dict_get p demand = Some dp ->
    Z.min (dp - sold) count <= 0 ->
    day_scan_spec demand sold money rest sold' money' rest' ->
    day_scan_spec demand sold money ((p, count) :: rest) sold' money' ((p, count) :: rest')
| scan_fill p count rest dp sold money sold' money' rest' :
    dict_get p demand = Some dp ->
    0 < Z.min (dp - sold) count ->
    day_scan_spec demand (sold + Z.min (dp - sold) count)
                  (money + p * Z.min (dp - sold) count) rest sold' money' rest' ->
    day_scan_spec demand sold money ((p, count) :: rest) sold' money'
                  ((p, count - Z.min (dp - sold) count) :: rest').

(** Days in the order of the demand matrix, [sold] restarting at 0 each day,
    [head_count] gaining the day's [sold], one triplet emitted per day. *)
Inductive forecast_spec
  : Z -> Z -> Pricing -> list (Z * list (Z * Z)) -> list (Z * Z * Z) -> Pricing -> Prop :=
| days_done head_count money pricing :
    forecast_spec head_count money pricing [] [] pricing
| days_next head_count money pricing day demand rest sold money' pricing' out final :
    day_scan_spec demand 0 money pricing sold money' pricing' ->
    forecast_spec (head_count + sold) money' pricing' rest out final ->
    forecast_spec head_count money pricing ((day, demand) :: rest)
                  ((day, head_count + sold, money') :: out) final.

(** Every price of [pricing] is a key of [demand]. *)
Definition demand_covers (pricing : Pricing) (demand : list (Z * Z)) : Prop :=
  forall p, In p (map fst pricing) -> dict_get p demand <> None.

Definition well_formed_matrix (pricing : Pricing) (demand_matrix : list (Z * list (Z * Z))) :=
  Forall (fun dd => demand_covers pricing (snd dd)) demand_matrix.

(** Same price keys, in the same order, with pointwise smaller or equal counts. *)
Definition pricing_le (P Q : Pricing) : Prop :=
  Forall2 (fun a b => fst a = fst b /\ snd a <= snd b) P Q.

Definition sum_counts (P : Pricing) : Z := fold_right (fun e acc => snd e + acc) 0 P.

Definition triplet_day (t : Z * Z * Z) : Z := fst (fst t).
Definition triplet_count (t : Z * Z * Z) : Z := snd (fst t).
Definition triplet_money (t : Z * Z * Z) : Z := snd t.

(** Seats sold on each day: the increments of the emitted counts. *)
Fixpoint sold_per_day (head_count : Z) (out : list (Z * Z * Z)) : list Z :=
  match out with
  | [] => []
  | t :: rest => (triplet_count t - head_count) :: sold_per_day (triplet_count t) rest
  end.

Definition example_od : OD := mkOD ply lpd (firstn 4 example_manifest).

(** Itinerary helpers, in [nat] indices. *)
Fixpoint consecutive_pairs (l : list Station) : list Key :=
  match l with
  | a :: ((b :: _) as rest) => (a, b) :: consecutive_pairs rest
  | _ => []
  end.

(** The keys [(itinerary[i], itinerary[j])] for [j] ascending, then [i < j]
    ascending: the order of the loops of [load_itinerary]. *)
Definition od_entry (k : Key) : Key * OD := (k, mkOD (fst k) (snd k) []).

Definition ordered_pairs (l : list Station) : list Key :=
  flat_map (fun j => map (fun i => (nth i l 0%nat, nth j l 0%nat)) (seq 0 j))
           (seq 0 (length l)).

(** Passengers sold on or before day [d], and their revenue. *)
Definition count_upto (d : Z) (ps : list Passenger) : nat :=
  length (filter (fun p => sale_day_x p <=? d) ps).

Definition total_price (ps : list Passenger) : Z :=
  fold_right (fun p acc => price p + acc) 0 ps.

Definition price_upto (d : Z) (ps : list Passenger) : Z :=
  total_price (filter (fun p => sale_day_x p <=? d) ps).

(** An OD whose second passenger has a negative price. *)
Definition refund_od : OD :=
  mkOD ply lpd [mkPassenger ply lpd (-2) 10; mkPassenger ply lpd (-1) (-5)].

(** Revenue of the seats taken between two states of [pricing]: the sum of
    [price * (count before - count after)] over the levels. *)
Fixpoint sold_value (P P' : Pricing) : Z :=
  match P, P' with
  | (p, c) :: rest, (_, c') :: rest' => p * (c - c') + sold_value rest rest'
  | _, _ => 0
  end.

Definition final_money (money : Z) (out : list (Z * Z * Z)) : Z :=
  last (map triplet_money out) money.



(** Leg number [i] of an itinerary: [itinerary[i]] to [itinerary[i + 1]],
    with object id [i]. *)
Definition itinerary_leg (itinerary : list Station) (i : nat) : Leg :=
  mkLeg i (nth i itinerary 0%nat) (nth (S i) itinerary 0%nat).

Definition itinerary_legs (itinerary : list Station) : list Leg :=
  map (itinerary_leg itinerary) (seq 0 (length itinerary - 1)).

(** The keys of [service.ods] with each OD's origin and destination. *)
Definition ods_shape (m : list (Key * OD)) : list (Key * Station * Station) :=
  map (fun kv => (fst kv, od_origin (snd kv), od_destination (snd kv))) m.

(** Number of passengers held by all the ODs of [service.ods]. *)
Definition total_passengers (m : list (Key * OD)) : nat :=
  fold_right (fun kv n => (length (od_passengers (snd kv)) + n)%nat) 0%nat m.

(** A dict entry for key [k] whose OD holds the passengers [G k]. *)
Definition od_entry_with (G : Key -> list Passenger) (k : Key) : Key * OD :=
  (k, mkOD (fst k) (snd k) (G k)).

(** [itinerary.index(x)]: position of the first occurrence. *)
Fixpoint index_of (x : Station) (l : list Station) : nat :=
  match l with
  | [] => 0%nat
  | y :: l' => if Nat.eqb x y then 0%nat else S (index_of x l')
  end.

(** A passenger's trip covers a leg: boarding at or before the leg's origin,
    leaving at or after its destination, along the itinerary. *)
Definition covers (itinerary : list Station) (leg : Leg) (p : Passenger) : bool :=
  Nat.leb (index_of (p_origin p) itinerary) (index_of (leg_origin leg) itinerary) &&
  Nat.leb (index_of (leg_destination leg) itinerary) (index_of (p_destination p) itinerary).

(** Every entry of [service.ods] is a fresh OD of its key, and the keys are
    distinct. *)
Definition fresh_ods (m : list (Key * OD)) : Prop :=
  Forall (fun kv => snd kv = mkOD (fst (fst kv)) (snd (fst kv)) []) m /\ NoDup (map fst m).

(** ** Theorems *)

(** Claim C2: the worked scenario of the source.  The OD Paris->Lyon holds
    the four passengers of the manifest for that pair, its [history()] is
    [[(-30,1,20); (-25,2,50); (-20,4,130)]] and [forecast(pricing,
    demand_matrix)] yields the eight triplets of the source's asserts. *)
Theorem example_history_forecast :
  snd (load_passenger_manifest example_service example_manifest) = None /\
  exists od,
    ods_get (ply, lpd) (svc_ods example_loaded) = Some od /\
    od_passengers od = firstn 4 example_manifest /\
    history od = [(-30, 1, 20); (-25, 2, 50); (-20, 4, 130)] /\
    exists pricing',
      forecast od example_pricing example_demand_matrix =
        Some ([(-7, 5, 150); (-6, 6, 170); (-5, 9, 260); (-4, 12, 360);
               (-3, 15, 480); (-2, 18, 620); (-1, 21, 770); (0, 21, 770)],
              pricing').
Proof.
  split; [vm_compute; reflexivity |].
  eexists; split; [vm_compute; reflexivity |].
  split; [vm_compute; reflexivity |].
  split; [vm_compute; reflexivity |].
  eexists; vm_compute; reflexivity.
Qed.

Lemma legs_until_stop (d : Station) (mid : list Leg) (stop : Leg) (rest : list Leg) :
  Forall (fun l => leg_origin l <> d) mid -> leg_origin stop = d ->
  legs_until d (mid ++ stop :: rest) = mid.
Proof.
  intros Hmid Hstop; induction Hmid as [| l mid Hl Hmid IH]; simpl.
  - rewrite Hstop, Nat.eqb_refl; reflexivity.
  - apply Nat.eqb_neq in Hl; rewrite Hl, IH; reflexivity.
Qed.

Lemma legs_until_all (d : Station) (legs : list Leg) :
  Forall (fun l => leg_origin l <> d) legs -> legs_until d legs = legs.
Proof.
  intros H; induction H as [| l legs Hl H IH]; simpl; [reflexivity |].
  apply Nat.eqb_neq in Hl; rewrite Hl, IH; reflexivity.
Qed.

Lemma od_legs_from_first (o d : Station) (pre : list Leg) (leg : Leg) (post : list Leg) :
  Forall (fun l => leg_origin l <> o) pre -> leg_origin leg = o ->
  od_legs_from o d (pre ++ leg :: post) = leg :: legs_until d post.
Proof.
  intros Hpre Hleg; induction Hpre as [| l pre Hl Hpre IH]; simpl.
  - rewrite Hleg, Nat.eqb_refl; reflexivity.
  - apply Nat.eqb_neq in Hl; rewrite Hl; exact IH.
Qed.

Lemma od_legs_from_absent (o d : Station) (legs : list Leg) :
  Forall (fun l => leg_origin l <> o) legs -> od_legs_from o d legs = [].
Proof.
  intros H; induction H as [| l legs Hl H IH]; simpl; [reflexivity |].
  apply Nat.eqb_neq in Hl; rewrite Hl; exact IH.
Qed.

(** Claim C4: [OD.legs] is the contiguous run of the service's legs that
    starts at the first leg whose origin is the OD's origin and stops just
    before the first later leg whose origin is the OD's destination, or runs
    to the end when there is none; when no leg starts at the OD's origin the
    result is empty (the function is total: no error).  On itinerary
    A-B-C-D, OD(A,C).legs = [A-B; B-C] and OD(B,D).legs = [B-C; C-D]. *)
Theorem od_legs_contiguous_run :
  (forall s od pre leg mid stop rest,
     svc_legs s = pre ++ leg :: mid ++ stop :: rest ->
     Forall (fun l => leg_origin l <> od_origin od) pre ->
     leg_origin leg = od_origin od ->
     Forall (fun l => leg_origin l <> od_destination od) mid ->
     leg_origin stop = od_destination od ->
     od_legs s od = leg :: mid) /\
  (forall s od pre leg post,
     svc_legs s = pre ++ leg :: post ->
     Forall (fun l => leg_origin l <> od_origin od) pre ->
     leg_origin leg = od_origin od ->
     Forall (fun l => leg_origin l <> od_destination od) post ->
     od_legs s od = leg :: post) /\
  (forall s od,
     Forall (fun l => leg_origin l <> od_origin od) (svc_legs s) ->
     od_legs s od = []) /\
  (exists odAC odBD,
     ods_get (0, 2)%nat (svc_ods example_service4) = Some odAC /\
     ods_get (1, 3)%nat (svc_ods example_service4) = Some odBD /\
     od_legs example_service4 odAC = firstn 2 (svc_legs example_service4) /\
     map leg_ends (od_legs example_service4 odAC) = [(0, 1); (1, 2)]%nat /\
     od_legs example_service4 odBD = skipn 1 (svc_legs example_service4) /\
     map leg_ends (od_legs example_service4 odBD) = [(1, 2); (2, 3)]%nat).
Proof.
  split; [| split; [| split]].
  - intros s od pre leg mid stop rest Hs Hpre Hleg Hmid Hstop.
    unfold od_legs; rewrite Hs, od_legs_from_first by assumption.
    rewrite legs_until_stop by assumption; reflexivity.
  - intros s od pre leg post Hs Hpre Hleg Hpost.
    unfold od_legs; rewrite Hs, od_legs_from_first by assumption.
    rewrite legs_until_all by assumption; reflexivity.
  - intros s od H; unfold od_legs; apply od_legs_from_absent; exact H.
  - do 2 eexists; repeat split; vm_compute; reflexivity.
Qed.

Lemma leg_passengers_loop_filter (s : Service) (leg : Leg) (ods : list (Key * OD)) :
  leg_passengers_loop s leg ods =
  concat (map od_passengers
              (filter (fun od => leg_in leg (od_legs s od)) (map snd ods))).
Proof.
  induction ods as [| [k od] ods IH]; simpl; [reflexivity |].
  destruct (leg_in leg (od_legs s od)); simpl; rewrite IH; reflexivity.
Qed.

Lemma length_concat_passengers (ods : list OD) :
  length (concat (map od_passengers ods)) = sum_lengths ods.
Proof.
  induction ods as [| od ods IH]; simpl; [reflexivity |].
  rewrite length_app, IH; reflexivity.
Qed.

(** Claim C6: [Leg.passengers] is the concatenation, in the iteration order
    of [service.ods] and each OD's insertion order, of the passenger lists of
    exactly the ODs whose [legs] contain the leg (identity test); its length
    is the sum of those ODs' passenger counts. *)
Theorem leg_passengers_concat (s : Service) (leg : Leg) :
  let crossing := filter (fun od => leg_in leg (od_legs s od)) (map snd (svc_ods s)) in
  leg_passengers s leg = concat (map od_passengers crossing) /\
  length (leg_passengers s leg) = sum_lengths crossing.
Proof.
  intros crossing; unfold leg_passengers.
  rewrite leg_passengers_loop_filter; split; [reflexivity |].
  apply length_concat_passengers.
Qed.

(** *** Forecast: the code against the rules of the spec *)

Lemma forecast_day_iff (demand : list (Z * Z)) (pricing : Pricing) :
  forall sold money sold' money' pricing',
    forecast_day demand sold money pricing = Some (sold', money', pricing') <->
    day_scan_spec demand sold money pricing sold' money' pricing'.
Proof.
  induction pricing as [| [p count] rest IH]; intros sold money sold' money' pricing'.
  - simpl; split.
    + intros H; inversion H; subst; constructor.
    + intros H; inversion H; subst; reflexivity.
  - simpl; split.
    + intros H.
      destruct (dict_get p demand) as [dp |] eqn:Ed; [| discriminate H].
      destruct (Z.min (dp - sold) count <=? 0) eqn:Ef.
      * apply Z.leb_le in Ef.
        destruct (forecast_day demand sold money rest) as [[[s1 m1] r1] |] eqn:E;
          [| discriminate H].
        inversion H; subst.
        eapply scan_skip; [exact Ed | exact Ef | apply IH; exact E].
      * apply Z.leb_gt in Ef.
        destruct (forecast_day demand (sold + Z.min (dp - sold) count)
                    (money + p * Z.min (dp - sold) count) rest)
          as [[[s1 m1] r1] |] eqn:E; [| discriminate H].
        inversion H; subst.
        eapply scan_fill; [exact Ed | exact Ef | apply IH; exact E].
    + intros H; inversion H; subst.
      * match goal with Hd : dict_get _ _ = Some _ |- _ => rewrite Hd end.
        match goal with Hf : Z.min _ _ <= 0 |- _ => apply Z.leb_le in Hf; rewrite Hf end.
        match goal with Hs : day_scan_spec _ _ _ rest _ _ _ |- _ => apply IH in Hs; rewrite Hs end.
        reflexivity.
      * match goal with Hd : dict_get _ _ = Some _ |- _ => rewrite Hd end.
        match goal with Hf : 0 < Z.min _ _ |- _ => apply Z.leb_gt in Hf; rewrite Hf end.
        match goal with Hs : day_scan_spec _ _ _ rest _ _ _ |- _ => apply IH in Hs; rewrite Hs end.
        reflexivity.
Qed.

Lemma forecast_loop_iff (demand_matrix : list (Z * list (Z * Z))) :
  forall head_count money pricing out final,
    forecast_loop head_count money pricing demand_matrix = Some (out, final) <->
    forecast_spec head_count money pricing demand_matrix out final.
Proof.
  induction demand_matrix as [| [day demand] rest IH];
    intros head_count money pricing out final; simpl.
  - split.
    + intros H; inversion H; subst; constructor.
    + intros H; inversion H; subst; reflexivity.
  - split.
    + intros H.
      destruct (forecast_day demand 0 money pricing) as [[[sold m1] p1] |] eqn:E1;
        [| discriminate H].
      destruct (forecast_loop (head_count + sold) m1 p1 rest) as [[o1 f1] |] eqn:E2;
        [| discriminate H].
      inversion H; subst.
      econstructor; [apply forecast_day_iff; exact E1 | apply IH; exact E2].
    + intros H; inversion H; subst.
      match goal with Hs : day_scan_spec _ _ _ _ _ _ _ |- _ =>
        apply forecast_day_iff in Hs; rewrite Hs end.
      match goal with Hs : forecast_spec _ _ _ rest _ _ |- _ =>
        apply IH in Hs; rewrite Hs end.
      reflexivity.
Qed.

Lemma day_scan_keys demand sold money P sold' money' P' :
  day_scan_spec demand sold money P sold' money' P' -> map fst P' = map fst P.
Proof. induction 1; simpl; congruence. Qed.

Lemma forecast_day_some (demand : list (Z * Z)) (P : Pricing) :
  demand_covers P demand ->
  forall sold money, exists r, forecast_day demand sold money P = Some r.
Proof.
  unfold demand_covers.
  induction P as [| [p count] rest IH]; intros Hcov sold money; simpl; [eauto |].
  destruct (dict_get p demand) as [dp |] eqn:Ed.
  2: { exfalso; apply (Hcov p); [left; reflexivity | exact Ed]. }
  assert (Hrest : forall q, In q (map fst rest) -> dict_get q demand <> None)
    by (intros q Hq; apply Hcov; right; exact Hq).
  destruct (Z.min (dp - sold) count <=? 0).
  - destruct (IH Hrest sold money) as [[[s1 m1] r1] E]; rewrite E; eauto.
  - destruct (IH Hrest (sold + Z.min (dp - sold) count)
                  (money + p * Z.min (dp - sold) count)) as [[[s1 m1] r1] E].
    rewrite E; eauto.
Qed.

Lemma forecast_loop_some (demand_matrix : list (Z * list (Z * Z))) :
  forall head_count money P,
    well_formed_matrix P demand_matrix ->
    exists r, forecast_loop head_count money P demand_matrix = Some r.
Proof.
  unfold well_formed_matrix.
  induction demand_matrix as [| [day demand] rest IH]; intros head_count money P Hwf;
    simpl; [eauto |].
  inversion Hwf as [| ? ? Hd Hrest]; subst; simpl in Hd.
  destruct (forecast_day_some demand P Hd 0 money) as [[[sold m1] p1] E1].
  rewrite E1.
  assert (Hk : map fst p1 = map fst P)
    by (apply forecast_day_iff in E1; eapply day_scan_keys; exact E1).
  assert (Hrest' : Forall (fun dd => demand_covers p1 (snd dd)) rest).
  { eapply Forall_impl; [| exact Hrest].
    intros dd Hc q Hq; apply Hc; rewrite <- Hk; exact Hq. }
  destruct (IH (head_count + sold) m1 p1 Hrest') as [[o1 f1] E2].
  rewrite E2; eauto.
Qed.

(** Claim C1: on a demand matrix in which every day maps every price of
    [pricing], [forecast] raises nothing, and its results are exactly those
    of the spec's rules [forecast_spec] seeded with the count and the price
    sum of the OD's passengers: per day, [sold] starts at 0, each price
    level in [pricing]'s order computes [want] and [fill], skips when
    [fill <= 0] and goes on, otherwise takes [fill] seats off [pricing[p]]
    and adds [fill] to [sold] and [p * fill] to [money]; then [sold] is added
    to [head_count] and [(day, head_count, money)] is emitted. *)
Theorem forecast_follows_rules (od : OD) (pricing : Pricing)
    (demand_matrix : list (Z * list (Z * Z))) :
  well_formed_matrix pricing demand_matrix ->
  (exists r, forecast od pricing demand_matrix = Some r) /\
  (forall out final,
     forecast od pricing demand_matrix = Some (out, final) <->
     forecast_spec (Z.of_nat (length (od_passengers od))) (sum_prices (od_passengers od))
                   pricing demand_matrix out final).
Proof.
  intros Hwf; split.
  - apply forecast_loop_some; exact Hwf.
  - intros out final; apply forecast_loop_iff.
Qed.

Lemma forecast_follows_rules_witness :
  well_formed_matrix example_pricing example_demand_matrix /\
  (exists r, forecast example_od example_pricing example_demand_matrix = Some r) /\
  (forall out final,
     forecast example_od example_pricing example_demand_matrix = Some (out, final) <->
     forecast_spec 4 130 example_pricing example_demand_matrix out final).
Proof.
  assert (Hwf : well_formed_matrix example_pricing example_demand_matrix).
  { unfold well_formed_matrix, demand_covers.
    repeat constructor; simpl; intros p Hp;
      repeat (destruct Hp as [Hp | Hp]; [subst p; vm_compute; discriminate |]);
      contradiction. }
  split; [exact Hwf |].
  exact (forecast_follows_rules example_od example_pricing example_demand_matrix Hwf).
Defined.

(** *** Forecast: effect on [pricing] *)

Lemma pricing_le_refl (P : Pricing) : pricing_le P P.
Proof. induction P; constructor; auto with zarith. Qed.

Lemma pricing_le_trans (P Q R : Pricing) :
  pricing_le P Q -> pricing_le Q R -> pricing_le P R.
Proof.
  intros H1; revert R; induction H1 as [| a b P Q [Hk Hv] H1 IH]; intros R H2;
    inversion H2 as [| ? c ? R' [Hk' Hv'] H2']; subst; constructor.
  - split; [congruence | lia].
  - apply IH; exact H2'.
Qed.

Lemma day_scan_effect demand sold money P sold' money' P' :
  day_scan_spec demand sold money P sold' money' P' ->
  pricing_le P' P /\ sum_counts P - sum_counts P' = sold' - sold /\ sold <= sold'.
Proof.
  induction 1 as [| p count rest dp sold money sold' money' rest' Hd Hf Hs [IH1 [IH2 IH3]]
                  | p count rest dp sold money sold' money' rest' Hd Hf Hs [IH1 [IH2 IH3]]];
    simpl.
  - repeat split; [constructor | lia | lia].
  - repeat split; [constructor; [simpl; split; lia | exact IH1] | lia | lia].
  - repeat split; [constructor; [simpl; split; lia | exact IH1] | lia | lia].
Qed.

Lemma day_scan_nonneg demand sold money P sold' money' P' :
  day_scan_spec demand sold money P sold' money' P' ->
  Forall (fun e => 0 <= snd e) P -> Forall (fun e => 0 <= snd e) P'.
Proof.
  induction 1; intros Hn; inversion Hn; subst; constructor; simpl in *; auto; lia.
Qed.

Definition final_count (head_count : Z) (out : list (Z * Z * Z)) : Z :=
  last (map triplet_count out) head_count.

Lemma last_cons_default {A} (a d : A) (l : list A) :
  last (a :: l) d = last l a.
Proof.
  revert a d; induction l as [| b l IH]; intros a d; [reflexivity |].
  change (last (b :: l) d = last (b :: l) a).
  rewrite !IH; reflexivity.
Qed.

Lemma final_count_cons (hc : Z) (t : Z * Z * Z) (out : list (Z * Z * Z)) :
  final_count hc (t :: out) = final_count (triplet_count t) out.
Proof. unfold final_count; simpl map; apply last_cons_default. Qed.

Lemma forecast_spec_effect hc money P dm out final :
  forecast_spec hc money P dm out final ->
  map triplet_day out = map fst dm /\
  pricing_le final P /\
  sum_counts P - sum_counts final = final_count hc out - hc.
Proof.
  induction 1 as [| hc money P day demand rest sold money' P' out final Hd Hs [IH1 [IH2 IH3]]].
  - repeat split; [apply pricing_le_refl | unfold final_count; simpl; lia].
  - destruct (day_scan_effect _ _ _ _ _ _ _ Hd) as [E1 [E2 E3]].
    rewrite final_count_cons; unfold triplet_count at 1; simpl.
    repeat split.
    + simpl; unfold triplet_day at 1; simpl; f_equal; exact IH1.
    + eapply pricing_le_trans; [exact IH2 | exact E1].
    + lia.
Qed.

Lemma forecast_spec_nonneg hc money P dm out final :
  forecast_spec hc money P dm out final ->
  Forall (fun e => 0 <= snd e) P -> Forall (fun e => 0 <= snd e) final.
Proof.
  induction 1 as [| hc money P day demand rest sold money' P' out final Hd Hs IH];
    intros Hn; auto.
  apply IH; eapply day_scan_nonneg; eassumption.
Qed.

(** Claim C7: on a well-formed demand matrix, [forecast] yields one triplet
    per entry of the demand matrix, in its order; the caller's [pricing]
    keeps its keys, every count can only go down, and the counts lose in
    total exactly the seats sold over the horizon (the last emitted count
    minus the OD's passenger count; 0 on an empty matrix).  The OD and the
    demand matrix are only read: [forecast] returns nothing else. *)
Theorem forecast_length_and_depletion (od : OD) (pricing : Pricing)
    (demand_matrix : list (Z * list (Z * Z))) :
  well_formed_matrix pricing demand_matrix ->
  exists out final,
    forecast od pricing demand_matrix = Some (out, final) /\
    length out = length demand_matrix /\
    map triplet_day out = map fst demand_matrix /\
    pricing_le final pricing /\
    sum_counts pricing - sum_counts final =
      final_count (Z.of_nat (length (od_passengers od))) out
      - Z.of_nat (length (od_passengers od)).
Proof.
  intros Hwf.
  destruct (forecast_loop_some demand_matrix (Z.of_nat (length (od_passengers od)))
              (sum_prices (od_passengers od)) pricing Hwf) as [[out final] E].
  exists out, final; split; [exact E |].
  apply forecast_loop_iff in E.
  destruct (forecast_spec_effect _ _ _ _ _ _ E) as [H1 [H2 H3]].
  split; [| split; [exact H1 | split; [exact H2 | exact H3]]].
  rewrite <- (length_map triplet_day out), H1, length_map; reflexivity.
Qed.

Lemma forecast_length_and_depletion_witness :
  well_formed_matrix example_pricing example_demand_matrix /\
  exists out final,
    forecast example_od example_pricing example_demand_matrix = Some (out, final) /\
    length out = length example_demand_matrix /\
    map triplet_day out = map fst example_demand_matrix /\
    pricing_le final example_pricing /\
    sum_counts example_pricing - sum_counts final = final_count 4 out - 4.
Proof.
  assert (Hwf : well_formed_matrix example_pricing example_demand_matrix).
  { unfold well_formed_matrix, demand_covers.
    repeat constructor; simpl; intros p Hp;
      repeat (destruct Hp as [Hp | Hp]; [subst p; vm_compute; discriminate |]);
      contradiction. }
  split; [exact Hwf |].
  exact (forecast_length_and_depletion example_od example_pricing example_demand_matrix Hwf).
Defined.

(** Claim C10: starting from non-negative seat counts, the counts left in
    [pricing] after a completed [forecast] are all still non-negative: each
    decrement is at most the level's current count. *)
Theorem forecast_never_oversells (od : OD) (pricing : Pricing)
    (demand_matrix : list (Z * list (Z * Z))) out final :
  forecast od pricing demand_matrix = Some (out, final) ->
  Forall (fun e => 0 <= snd e) pricing ->
  Forall (fun e => 0 <= snd e) final.
Proof.
  intros E Hn; apply forecast_loop_iff in E.
  eapply forecast_spec_nonneg; eassumption.
Qed.

Lemma forecast_never_oversells_witness :
  exists out final,
    forecast example_od example_pricing example_demand_matrix = Some (out, final) /\
    Forall (fun e => 0 <= snd e) example_pricing /\
    Forall (fun e => 0 <= snd e) final.
Proof.
  destruct (forecast example_od example_pricing example_demand_matrix)
    as [[out final] |] eqn:E; [| vm_compute in E; discriminate E].
  exists out, final; split; [reflexivity |].
  assert (Hn : Forall (fun e => 0 <= snd e) example_pricing)
    by (repeat constructor; simpl; lia).
  split; [exact Hn |].
  exact (forecast_never_oversells example_od example_pricing example_demand_matrix
           out final E Hn).
Defined.

(** *** Forecast: a second run on the depleted [pricing] *)

Lemma dict_get_det (k : Z) (m : list (Z * Z)) a b :
  dict_get k m = Some a -> dict_get k m = Some b -> a = b.
Proof. congruence. Qed.

(** Less inventory and fewer seats already sold give fewer seats sold by the
    end of the day's scan. *)
Lemma day_scan_mono demand s1 m1 P s1' m1' P1 :
  day_scan_spec demand s1 m1 P s1' m1' P1 ->
  forall s2 m2 Q s2' m2' Q1,
    day_scan_spec demand s2 m2 Q s2' m2' Q1 ->
    pricing_le P Q -> s1 <= s2 -> s1' <= s2'.
Proof.
  induction 1 as [| p c rest dp s1 m1 s1' m1' rest' Hd Hf Hs IH
                  | p c rest dp s1 m1 s1' m1' rest' Hd Hf Hs IH];
    intros s2 m2 Q s2' m2' Q1 H2 Hle Hs12.
  - inversion Hle; subst; inversion H2; subst; lia.
  - inversion Hle as [| a b rest0 Q0 [Hk Hv] Hle']; subst; simpl in Hk, Hv; subst.
    inversion H2 as [| ? c2 ? dp2 ? ? ? ? ? Hd2 Hf2 Hs2
                     | ? c2 ? dp2 ? ? ? ? ? Hd2 Hf2 Hs2]; subst;
      pose proof (dict_get_det _ _ _ _ Hd Hd2); subst dp2.
    + eapply IH; [exact Hs2 | exact Hle' | simpl in Hv; lia].
    + eapply IH; [exact Hs2 | exact Hle' | simpl in Hv; lia].
  - inversion Hle as [| a b rest0 Q0 [Hk Hv] Hle']; subst; simpl in Hk, Hv; subst.
    inversion H2 as [| ? c2 ? dp2 ? ? ? ? ? Hd2 Hf2 Hs2
                     | ? c2 ? dp2 ? ? ? ? ? Hd2 Hf2 Hs2]; subst;
      pose proof (dict_get_det _ _ _ _ Hd Hd2); subst dp2.
    + eapply IH; [exact Hs2 | exact Hle' | simpl in Hv; lia].
    + eapply IH; [exact Hs2 | exact Hle' | simpl in Hv; lia].
Qed.

(** Run 1 goes from [Q] to [Qf]; a run 2 over the same days from any [P]
    below [Qf] sells, day by day, at most what run 1 sold. *)
Lemma forecast_spec_mono hc1 m1 Q dm out1 Qf :
  forecast_spec hc1 m1 Q dm out1 Qf ->
  forall hc2 m2 P out2 Pf,
    forecast_spec hc2 m2 P dm out2 Pf ->
    pricing_le P Qf ->
    Forall2 Z.le (sold_per_day hc2 out2) (sold_per_day hc1 out1).
Proof.
  induction 1 as [| hc1 m1 Q day demand rest sold1 m1' Q1 out1 Qf Hd1 Hs1 IH];
    intros hc2 m2 P out2 Pf H2 Hle.
  - inversion H2; subst; constructor.
  - inversion H2 as [| ? ? ? ? ? ? sold2 m2' P1 out2' ? Hd2 Hs2]; subst.
    destruct (day_scan_effect _ _ _ _ _ _ _ Hd1) as [HQ1 _].
    destruct (forecast_spec_effect _ _ _ _ _ _ Hs1) as [_ [HQf _]].
    destruct (day_scan_effect _ _ _ _ _ _ _ Hd2) as [HP1 _].
    assert (HPQ : pricing_le P Q)
      by (eapply pricing_le_trans; [exact Hle |];
          eapply pricing_le_trans; [exact HQf | exact HQ1]).
    pose proof (day_scan_mono _ _ _ _ _ _ _ Hd2 _ _ _ _ _ _ Hd1 HPQ (Z.le_refl 0)) as Hm.
    simpl; unfold triplet_count at 1 3; simpl.
    constructor; [lia |].
    apply (IH _ _ _ _ _ Hs2).
    eapply pricing_le_trans; [exact HP1 | exact Hle].
Qed.

(** Claim C8: running [forecast] a second time with the same, now depleted,
    [pricing] sells on every day at most as many seats as the first run did
    on that day (the increments of the emitted counts). *)
Theorem forecast_twice_sells_less (od : OD) (pricing : Pricing)
    (demand_matrix : list (Z * list (Z * Z))) out1 pricing1 out2 pricing2 :
  forecast od pricing demand_matrix = Some (out1, pricing1) ->
  forecast od pricing1 demand_matrix = Some (out2, pricing2) ->
  Forall2 Z.le (sold_per_day (Z.of_nat (length (od_passengers od))) out2)
               (sold_per_day (Z.of_nat (length (od_passengers od))) out1).
Proof.
  unfold forecast; intros E1 E2.
  apply forecast_loop_iff in E1; apply forecast_loop_iff in E2.
  eapply forecast_spec_mono; [exact E1 | exact E2 | apply pricing_le_refl].
Qed.

Definition example_pricing_more : Pricing := [(10, 0); (20, 2); (30, 5); (40, 5); (50, 12)].

Lemma forecast_twice_sells_less_witness :
  exists out1 pricing1 out2 pricing2,
    forecast example_od example_pricing_more example_demand_matrix = Some (out1, pricing1) /\
    forecast example_od pricing1 example_demand_matrix = Some (out2, pricing2) /\
    Forall2 Z.le (sold_per_day 4 out2) (sold_per_day 4 out1).
Proof.
  destruct (forecast example_od example_pricing_more example_demand_matrix)
    as [[out1 pricing1] |] eqn:E1; [| vm_compute in E1; discriminate E1].
  destruct (forecast example_od pricing1 example_demand_matrix)
    as [[out2 pricing2] |] eqn:E2.
  2: { vm_compute in E1; inversion E1; subst; vm_compute in E2; discriminate E2. }
  exists out1, pricing1, out2, pricing2; split; [reflexivity | split; [exact E2 |]].
  exact (forecast_twice_sells_less example_od example_pricing_more example_demand_matrix
           out1 pricing1 out2 pricing2 E1 E2).
Defined.

(** *** Manifest loading *)

Lemma key_eqb_true_iff (a b : Key) : key_eqb a b = true <-> a = b.
Proof.
  destruct a as [a1 a2], b as [b1 b2]; unfold key_eqb; simpl.
  rewrite andb_true_iff, !Nat.eqb_eq; split.
  - intros [-> ->]; reflexivity.
  - intros H; inversion H; split; reflexivity.
Qed.

Lemma key_eqb_refl (a : Key) : key_eqb a a = true.
Proof. apply key_eqb_true_iff; reflexivity. Qed.

Lemma ods_get_set (k k' : Key) (v : OD) (m : list (Key * OD)) :
  ods_get k' m <> None ->
  ods_get k (ods_set k' v m) = if key_eqb k k' then Some v else ods_get k m.
Proof.
  induction m as [| [k0 v0] m IH]; simpl; intros Hk'; [contradiction |].
  destruct (key_eqb k' k0) eqn:E0.
  - apply key_eqb_true_iff in E0; subst k0; simpl.
    destruct (key_eqb k k'); reflexivity.
  - simpl; rewrite IH by exact Hk'.
    destruct (key_eqb k k0) eqn:E1; [| reflexivity].
    apply key_eqb_true_iff in E1; subst k0.
    destruct (key_eqb k k') eqn:E2; [| reflexivity].
    apply key_eqb_true_iff in E2; subst k'; rewrite key_eqb_refl in E0; discriminate.
Qed.

Lemma ods_get_set_none (k k' : Key) (v : OD) (m : list (Key * OD)) :
  ods_get k' m <> None ->
  (ods_get k (ods_set k' v m) = None <-> ods_get k m = None).
Proof.
  intros Hk'; rewrite ods_get_set by exact Hk'.
  destruct (key_eqb k k') eqn:E; [| reflexivity].
  apply key_eqb_true_iff in E; subst k'; split; [discriminate | contradiction].
Qed.

(** One successful iteration of the manifest loop. *)
Definition manifest_step (s : Service) (passenger : Passenger) (od : OD) : Service :=
  mkService (svc_legs s)
    (ods_set (passenger_key passenger)
       (mkOD (od_origin od) (od_destination od) (od_passengers od ++ [passenger]))
       (svc_ods s))
    (svc_next_id s).

Lemma load_manifest_cons_found (s : Service) (p : Passenger) (rest : list Passenger) od :
  ods_get (passenger_key p) (svc_ods s) = Some od ->
  load_passenger_manifest s (p :: rest) =
  load_passenger_manifest (manifest_step s p od) rest.
Proof. intros H; simpl; rewrite H; reflexivity. Qed.

Lemma manifest_step_none (s : Service) (p : Passenger) od k :
  ods_get (passenger_key p) (svc_ods s) = Some od ->
  (ods_get k (svc_ods (manifest_step s p od)) = None <-> ods_get k (svc_ods s) = None).
Proof.
  intros H; unfold manifest_step; simpl.
  apply ods_get_set_none; rewrite H; discriminate.
Qed.

Lemma load_manifest_raises (ps : list Passenger) :
  forall s, snd (load_passenger_manifest s ps) <> None <->
            exists p, In p ps /\ ods_get (passenger_key p) (svc_ods s) = None.
Proof.
  induction ps as [| p ps IH]; intros s; simpl.
  - split; [intros H; contradiction H; reflexivity | intros [p [[] _]]].
  - destruct (ods_get (passenger_key p) (svc_ods s)) as [od |] eqn:E.
    + change (snd (load_passenger_manifest (manifest_step s p od) ps) <> None <->
              exists q, (p = q \/ In q ps) /\ ods_get (passenger_key q) (svc_ods s) = None).
      rewrite IH; split.
      * intros [q [Hq Hn]]; exists q; split; [right; exact Hq |].
        apply (manifest_step_none s p od) in Hn; [exact Hn | exact E].
      * intros [q [[<- | Hq] Hn]]; [congruence |].
        exists q; split; [exact Hq |].
        apply (manifest_step_none s p od); [exact E | exact Hn].
    + simpl; split; [intros _; exists p; split; [left; reflexivity | exact E] | discriminate].
Qed.

Lemma load_manifest_prefix (pre : list Passenger) :
  forall s p post,
    Forall (fun q => ods_get (passenger_key q) (svc_ods s) <> None) pre ->
    ods_get (passenger_key p) (svc_ods s) = None ->
    load_passenger_manifest s (pre ++ p :: post) =
      (fst (load_passenger_manifest s pre), Some (KeyError (passenger_key p))) /\
    snd (load_passenger_manifest s pre) = None.
Proof.
  induction pre as [| q pre IH]; intros s p post Hpre Hp; simpl.
  - rewrite Hp; split; reflexivity.
  - inversion Hpre as [| ? ? Hq Hpre']; subst.
    destruct (ods_get (passenger_key q) (svc_ods s)) as [od |] eqn:E; [| contradiction].
    apply IH.
    + eapply Forall_impl; [| exact Hpre'].
      intros r Hr Hn; apply Hr; apply (manifest_step_none s q od); [exact E | exact Hn].
    + apply (manifest_step_none s q od); [exact E | exact Hp].
Qed.

Lemma load_manifest_appends (pre : list Passenger) :
  forall s,
    Forall (fun q => ods_get (passenger_key q) (svc_ods s) <> None) pre ->
    forall k od, ods_get k (svc_ods s) = Some od ->
    exists od', ods_get k (svc_ods (fst (load_passenger_manifest s pre))) = Some od' /\
                od_origin od' = od_origin od /\ od_destination od' = od_destination od /\
                od_passengers od' =
                  od_passengers od ++ filter (fun q => key_eqb (passenger_key q) k) pre.
Proof.
  induction pre as [| q pre IH]; intros s Hpre k od Hk; simpl.
  - exists od; rewrite app_nil_r; repeat split; exact Hk.
  - inversion Hpre as [| ? ? Hq Hpre']; subst.
    destruct (ods_get (passenger_key q) (svc_ods s)) as [odq |] eqn:E; [| contradiction].
    assert (Hpre'' : Forall (fun r => ods_get (passenger_key r) (svc_ods (manifest_step s q odq))
                                       <> None) pre).
    { eapply Forall_impl; [| exact Hpre'].
      intros r Hr Hn; apply Hr; apply (manifest_step_none s q odq); [exact E | exact Hn]. }
    assert (Hget : ods_get k (svc_ods (manifest_step s q odq)) =
                   if key_eqb k (passenger_key q)
                   then Some (mkOD (od_origin odq) (od_destination odq)
                                   (od_passengers odq ++ [q]))
                   else ods_get k (svc_ods s))
      by (unfold manifest_step; simpl; apply ods_get_set; rewrite E; discriminate).
    destruct (key_eqb k (passenger_key q)) eqn:Ekq.
    + apply key_eqb_true_iff in Ekq; subst k.
      rewrite E in Hk; inversion Hk; subst odq.
      destruct (IH _ Hpre'' _ _ Hget) as [od' [H1 [H2 [H3 H4]]]].
      exists od'; simpl in H2, H3, H4; repeat split; try assumption.
      rewrite key_eqb_refl, H4, <- app_assoc; reflexivity.
    + rewrite Hk in Hget.
      destruct (IH _ Hpre'' _ _ Hget) as [od' [H1 [H2 [H3 H4]]]].
      exists od'; repeat split; try assumption.
      assert (Eqk : key_eqb (passenger_key q) k = false).
      { destruct (key_eqb (passenger_key q) k) eqn:X; [| reflexivity].
        apply key_eqb_true_iff in X; subst k; rewrite key_eqb_refl in Ekq; discriminate. }
      rewrite Eqk; exact H4.
Qed.

(** Claim C9: [load_passenger_manifest] raises a lookup error exactly when
    some passenger's (origin, destination) has no OD in the service.  It is
    fail-fast: on [pre ++ p :: post] with [p] the first passenger without an
    OD, the resulting state is the state after loading [pre] alone (nothing
    at or after [p] is appended) and the error is [KeyError] on [p]'s pair;
    loading [pre] appends each of its passengers, in order, to the OD of its
    pair. *)
Theorem manifest_lookup_fail_fast (s : Service) :
  (forall ps, snd (load_passenger_manifest s ps) <> None <->
              exists p, In p ps /\ ods_get (passenger_key p) (svc_ods s) = None) /\
  (forall pre p post,
     Forall (fun q => ods_get (passenger_key q) (svc_ods s) <> None) pre ->
     ods_get (passenger_key p) (svc_ods s) = None ->
     load_passenger_manifest s (pre ++ p :: post) =
       (fst (load_passenger_manifest s pre), Some (KeyError (passenger_key p))) /\
     snd (load_passenger_manifest s pre) = None /\
     forall k od, ods_get k (svc_ods s) = Some od ->
       exists od', ods_get k (svc_ods (fst (load_passenger_manifest s pre))) = Some od' /\
                   od_origin od' = od_origin od /\ od_destination od' = od_destination od /\
                   od_passengers od' =
                     od_passengers od ++ filter (fun q => key_eqb (passenger_key q) k) pre).
Proof.
  split; [intros ps; apply load_manifest_raises |].
  intros pre p post Hpre Hp.
  destruct (load_manifest_prefix pre s p post Hpre Hp) as [H1 H2].
  split; [exact H1 | split; [exact H2 |]].
  apply load_manifest_appends; exact Hpre.
Qed.

(** *** Itinerary loading *)

Section Itinerary.
Local Open Scope nat_scope.

Lemma enumerate_from_snoc {A} (l : list A) (x : A) :
  forall i, enumerate_from i (l ++ [x]) = enumerate_from i l ++ [(i + length l, x)].
Proof.
  induction l as [| a l IH]; intros i; simpl.
  - rewrite Nat.add_0_r; reflexivity.
  - rewrite IH, Nat.add_succ_r; reflexivity.
Qed.

Lemma enumerate_from_index {A} (l : list A) :
  forall i j y, In (j, y) (enumerate_from i l) -> i <= j < i + length l.
Proof.
  induction l as [| a l IH]; intros i j y H; simpl in H; [contradiction |].
  destruct H as [H | H]; [inversion H; simpl; lia |].
  apply IH in H; simpl; lia.
Qed.

Lemma step_same_prefix (it1 it2 : list Station) (s : Service) (i : nat) (st : Station) :
  firstn i it1 = firstn i it2 ->
  load_itinerary_step it1 s (i, st) = load_itinerary_step it2 s (i, st).
Proof. intros H; unfold load_itinerary_step; rewrite H; reflexivity. Qed.

Lemma fold_steps_same_prefix (it1 it2 : list Station) (L : list (nat * Station)) :
  (forall i y, In (i, y) L -> firstn i it1 = firstn i it2) ->
  forall s, fold_left (load_itinerary_step it1) L s = fold_left (load_itinerary_step it2) L s.
Proof.
  induction L as [| [i y] L IH]; intros H s; cbn [fold_left]; [reflexivity |].
  rewrite (step_same_prefix it1 it2 s i y) by (apply (H i y); left; reflexivity).
  apply IH; intros j z Hj; apply (H j z); right; exact Hj.
Qed.

Lemma load_itinerary_snoc (s : Service) (pre : list Station) (x : Station) :
  load_itinerary s (pre ++ [x]) =
  load_itinerary_step pre (load_itinerary s pre) (length pre, x).
Proof.
  unfold load_itinerary, enumerate.
  rewrite enumerate_from_snoc, fold_left_app; simpl.
  rewrite (fold_steps_same_prefix (pre ++ [x]) pre).
  - apply step_same_prefix.
    rewrite firstn_app, Nat.sub_diag, firstn_all; simpl; rewrite app_nil_r; reflexivity.
  - intros i y Hi; apply enumerate_from_index in Hi.
    rewrite firstn_app; replace (i - length pre) with 0 by lia; simpl.
    apply app_nil_r.
Qed.

Lemma consecutive_pairs_snoc (pre : list Station) (x : Station) :
  consecutive_pairs (pre ++ [x]) =
  consecutive_pairs pre ++ match pre with [] => [] | _ :: _ => [(last pre x, x)] end.
Proof.
  induction pre as [| a pre IH]; [reflexivity |].
  destruct pre as [| b pre]; [reflexivity |].
  transitivity ((a, b) :: consecutive_pairs ((b :: pre) ++ [x])); [reflexivity |].
  rewrite IH; reflexivity.
Qed.

Lemma consecutive_pairs_length (l : list Station) :
  length (consecutive_pairs l) = length l - 1.
Proof.
  induction l as [| a l IH]; [reflexivity |].
  destruct l as [| b l]; [reflexivity |].
  change (S (length (consecutive_pairs (b :: l))) = length (a :: b :: l) - 1).
  rewrite IH; simpl; lia.
Qed.

Lemma map_nth_seq_self (l : list Station) (d : Station) :
  map (fun i => nth i l d) (seq 0 (length l)) = l.
Proof.
  induction l as [| a l IH]; [reflexivity |].
  simpl; f_equal; rewrite <- seq_shift, map_map; exact IH.
Qed.

Lemma ordered_pairs_snoc (pre : list Station) (x : Station) :
  ordered_pairs (pre ++ [x]) = ordered_pairs pre ++ map (fun p => (p, x)) pre.
Proof.
  unfold ordered_pairs.
  rewrite length_app; simpl; rewrite Nat.add_1_r, seq_S, flat_map_app; simpl.
  rewrite app_nil_r; f_equal.
  - rewrite !flat_map_concat_map; f_equal.
    apply map_ext_in; intros j Hj; apply in_seq in Hj.
    apply map_ext_in; intros i Hi; apply in_seq in Hi.
    rewrite !app_nth1 by lia; reflexivity.
  - rewrite nth_middle.
    rewrite <- (map_nth_seq_self pre 0) at 2; rewrite map_map.
    apply map_ext_in; intros i Hi; apply in_seq in Hi.
    rewrite app_nth1 by lia; reflexivity.
Qed.

Lemma ods_get_none_iff (k : Key) (m : list (Key * OD)) :
  ods_get k m = None <-> ~ In k (map fst m).
Proof.
  induction m as [| [k0 v0] m IH]; simpl; [tauto |].
  destruct (key_eqb k k0) eqn:E.
  - apply key_eqb_true_iff in E; subst k0; split; [discriminate | tauto].
  - rewrite IH; split.
    + intros H [H0 | H0]; [subst k0; rewrite key_eqb_refl in E; discriminate | tauto].
    + tauto.
Qed.

Lemma ods_set_new (k : Key) (v : OD) (m : list (Key * OD)) :
  ods_get k m = None -> ods_set k v m = m ++ [(k, v)].
Proof.
  induction m as [| [k0 v0] m IH]; simpl; intros H; [reflexivity |].
  destruct (key_eqb k k0); [discriminate | rewrite IH by exact H; reflexivity].
Qed.

Lemma inner_loop_appends (x : Station) (prevs : list Station) :
  NoDup prevs ->
  forall m, (forall p, In p prevs -> ~ In (p, x) (map fst m)) ->
  fold_left (fun m prev => ods_set (prev, x) (mkOD prev x []) m) prevs m =
  m ++ map (fun p => od_entry (p, x)) prevs.
Proof.
  induction 1 as [| p prevs Hp Hnd IH]; intros m Hm; simpl; [rewrite app_nil_r; reflexivity |].
  rewrite ods_set_new by (apply ods_get_none_iff; apply Hm; left; reflexivity).
  rewrite IH.
  - rewrite <- app_assoc; reflexivity.
  - intros q Hq; rewrite map_app; simpl; rewrite in_app_iff; simpl.
    intros [H | [H | []]]; [apply (Hm q); [right; exact Hq | exact H] |].
    inversion H; subst; contradiction.
Qed.

Lemma ordered_pairs_in (l : list Station) (a b : Station) :
  In (a, b) (ordered_pairs l) <->
  exists i j, i < j < length l /\ (a, b) = (nth i l 0, nth j l 0).
Proof.
  unfold ordered_pairs; rewrite in_flat_map; split.
  - intros [j [Hj Hin]]; apply in_seq in Hj; apply in_map_iff in Hin.
    destruct Hin as [i [Heq Hi]]; apply in_seq in Hi.
    exists i, j; split; [lia | symmetry; exact Heq].
  - intros [i [j [Hij Heq]]]; exists j; split; [apply in_seq; lia |].
    apply in_map_iff; exists i; split; [symmetry; exact Heq | apply in_seq; lia].
Qed.

Lemma ordered_pairs_snd_in (l : list Station) (a b : Station) :
  In (a, b) (ordered_pairs l) -> In b l.
Proof.
  intros H; apply ordered_pairs_in in H; destruct H as [i [j [Hij Heq]]].
  inversion Heq; subst; apply nth_In; lia.
Qed.

(** The state after loading an itinerary of distinct stations. *)
Lemma load_itinerary_state (l : list Station) :
  NoDup l ->
  svc_ods (load_itinerary new_service l) = map od_entry (ordered_pairs l) /\
  map leg_ends (svc_legs (load_itinerary new_service l)) = consecutive_pairs l.
Proof.
  induction l as [| x pre IH] using rev_ind; intros Hnd; [split; reflexivity |].
  assert (Hpre : NoDup pre) by (eapply NoDup_app_remove_r; exact Hnd).
  assert (Hx : ~ In x pre)
    by (intros H; apply NoDup_remove_2 in Hnd; rewrite app_nil_r in Hnd; contradiction).
  destruct (IH Hpre) as [Hods Hlegs].
  rewrite load_itinerary_snoc, ordered_pairs_snoc, consecutive_pairs_snoc.
  unfold load_itinerary_step.
  destruct (Nat.eqb (length pre) 0) eqn:E0.
  - apply Nat.eqb_eq, length_zero_iff_nil in E0; subst pre; split; reflexivity.
  - rewrite firstn_all; simpl; split.
    + rewrite Hods, inner_loop_appends by
        (exact Hpre || (intros p _ Hin; rewrite map_map in Hin; simpl in Hin;
                        rewrite map_id in Hin; apply ordered_pairs_snd_in in Hin;
                        contradiction)).
      rewrite map_app, map_map; reflexivity.
    + rewrite map_app, Hlegs; destruct pre as [| a pre']; [discriminate E0 | reflexivity].
Qed.

Lemma ordered_pairs_nodup (l : list Station) : NoDup l -> NoDup (ordered_pairs l).
Proof.
  induction l as [| x pre IH] using rev_ind; intros Hnd; [constructor |].
  assert (Hpre : NoDup pre) by (eapply NoDup_app_remove_r; exact Hnd).
  assert (Hx : ~ In x pre)
    by (intros H; apply NoDup_remove_2 in Hnd; rewrite app_nil_r in Hnd; contradiction).
  rewrite ordered_pairs_snoc; apply NoDup_app.
  - apply IH; exact Hpre.
  - clear Hnd IH Hx; induction Hpre as [| p pre Hp Hpre IHp]; simpl; constructor; [| exact IHp].
    intros H; apply in_map_iff in H; destruct H as [q [Hq Hin]]; inversion Hq; subst; contradiction.
  - intros [a b] H1 H2; apply ordered_pairs_snd_in in H1.
    apply in_map_iff in H2; destruct H2 as [q [Hq _]]; inversion Hq; subst; contradiction.
Qed.

Lemma ordered_pairs_length (l : list Station) :
  2 * length (ordered_pairs l) = length l * (length l - 1).
Proof.
  induction l as [| x pre IH] using rev_ind; [reflexivity |].
  rewrite ordered_pairs_snoc, !length_app, length_map; simpl.
  destruct (length pre) as [| n]; simpl in *; nia.
Qed.

(** Claim C5: loading an itinerary of [N] distinct stations into a fresh
    service creates [N - 1] legs, one per consecutive pair in itinerary
    order, and [N * (N - 1) / 2] ODs with distinct keys, the key set being
    exactly the pairs [(itinerary[i], itinerary[j])] with [i < j] (so no
    reverse-direction OD), each OD carrying its key's origin and
    destination and no passenger; with [N <= 1] nothing is created (and the
    function, being total, raises nothing). *)
Theorem load_itinerary_counts (itinerary : list Station) :
  NoDup itinerary ->
  let s := load_itinerary new_service itinerary in
  let N := length itinerary in
  length (svc_legs s) = N - 1 /\
  map leg_ends (svc_legs s) = consecutive_pairs itinerary /\
  length (svc_ods s) = N * (N - 1) / 2 /\
  NoDup (map fst (svc_ods s)) /\
  (forall k, In k (map fst (svc_ods s)) <->
     exists i j, i < j < N /\ k = (nth i itinerary 0, nth j itinerary 0)) /\
  Forall (fun e => od_origin (snd e) = fst (fst e) /\ od_destination (snd e) = snd (fst e) /\
                   od_passengers (snd e) = []) (svc_ods s) /\
  (N <= 1 -> svc_legs s = [] /\ svc_ods s = []).
Proof.
  intros Hnd s N; subst s N.
  destruct (load_itinerary_state itinerary Hnd) as [Hods Hlegs].
  set (s := load_itinerary new_service itinerary) in *.
  set (N := length itinerary).
  assert (Hkeys : map fst (svc_ods s) = ordered_pairs itinerary)
    by (rewrite Hods, map_map; apply map_id).
  assert (HlenL : length (svc_legs s) = N - 1)
    by (rewrite <- (length_map leg_ends), Hlegs; apply consecutive_pairs_length).
  clearbody s.
  assert (HlenO : length (svc_ods s) = N * (N - 1) / 2).
  { rewrite <- (length_map fst), Hkeys; unfold N; rewrite <- ordered_pairs_length, Nat.mul_comm.
    rewrite Nat.div_mul by discriminate; reflexivity. }
  split; [exact HlenL |].
  split; [exact Hlegs |].
  split; [exact HlenO |].
  split; [rewrite Hkeys; apply ordered_pairs_nodup; exact Hnd |].
  split.
  { intros [a b]; rewrite Hkeys; apply ordered_pairs_in. }
  split.
  { rewrite Hods; apply Forall_forall; intros e He.
    apply in_map_iff in He; destruct He as [k [<- _]]; simpl; repeat split. }
  intros HN; split; apply length_zero_iff_nil; [rewrite HlenL | rewrite HlenO];
    destruct N as [| [| n]]; simpl; try reflexivity; lia.
Qed.

Lemma load_itinerary_counts_witness :
  NoDup example_itinerary4 /\
  let s := load_itinerary new_service example_itinerary4 in
  let N := length example_itinerary4 in
  length (svc_legs s) = N - 1 /\
  map leg_ends (svc_legs s) = consecutive_pairs example_itinerary4 /\
  length (svc_ods s) = N * (N - 1) / 2 /\
  NoDup (map fst (svc_ods s)) /\
  (forall k, In k (map fst (svc_ods s)) <->
     exists i j, i < j < N /\ k = (nth i example_itinerary4 0, nth j example_itinerary4 0)) /\
  Forall (fun e => od_origin (snd e) = fst (fst e) /\ od_destination (snd e) = snd (fst e) /\
                   od_passengers (snd e) = []) (svc_ods s) /\
  (N <= 1 -> svc_legs s = [] /\ svc_ods s = []).
Proof.
  assert (Hnd : NoDup example_itinerary4)
    by (repeat constructor; simpl; intros H; repeat destruct H as [H | H]; discriminate || exact H).
  split; [exact Hnd |].
  exact (load_itinerary_counts example_itinerary4 Hnd).
Defined.

End Itinerary.

(** *** History *)

Definition day_le (p q : Passenger) : Prop := sale_day_x p <= sale_day_x q.

Lemma insert_by_day_perm (p : Passenger) (l : list Passenger) :
  Permutation (p :: l) (insert_by_day p l).
Proof.
  induction l as [| q l IH]; simpl; [reflexivity |].
  destruct (sale_day_x p <=? sale_day_x q); [reflexivity |].
  eapply perm_trans; [apply perm_swap | apply perm_skip; exact IH].
Qed.

Lemma sort_by_day_perm (l : list Passenger) : Permutation l (sort_by_day l).
Proof.
  induction l as [| p l IH]; simpl; [reflexivity |].
  eapply perm_trans; [apply perm_skip; exact IH | apply insert_by_day_perm].
Qed.

Lemma insert_by_day_sorted (p : Passenger) (l : list Passenger) :
  Sorted day_le l -> Sorted day_le (insert_by_day p l).
Proof.
  induction 1 as [| q l Hl IH Hhd]; simpl.
  - repeat constructor.
  - destruct (sale_day_x p <=? sale_day_x q) eqn:E.
    + apply Z.leb_le in E; constructor; [constructor; assumption | constructor; exact E].
    + apply Z.leb_gt in E; constructor; [exact IH |].
      destruct l as [| r l]; simpl.
      * constructor; unfold day_le; lia.
      * inversion Hhd; subst.
        destruct (sale_day_x p <=? sale_day_x r); constructor; unfold day_le in *; lia.
Qed.

Lemma sort_by_day_sorted (l : list Passenger) : StronglySorted day_le (sort_by_day l).
Proof.
  apply Sorted_StronglySorted; [unfold Relations_1.Transitive, day_le; intros; lia |].
  induction l as [| p l IH]; simpl; [constructor |].
  apply insert_by_day_sorted; exact IH.
Qed.

(** The groups built by [groupby] on a list sorted by day: non-empty,
    each of one day, days strictly ascending. *)
Definition groups_ok (gs : list (Z * list Passenger)) : Prop :=
  Forall (fun kg => snd kg <> [] /\ Forall (fun p => sale_day_x p = fst kg) (snd kg)) gs /\
  StronglySorted Z.lt (map fst gs).

Lemma groupby_day_sorted (l : list Passenger) :
  StronglySorted day_le l ->
  groups_ok (groupby_day l) /\ concat (map snd (groupby_day l)) = l.
Proof.
  induction 1 as [| p l Hl [[Hg Hs] Hc] Hp]; [split; [split; constructor | reflexivity] |].
  simpl; destruct (groupby_day l) as [| [k g] gs] eqn:E.
  - simpl in Hc; subst l; split; [split | reflexivity].
    + repeat constructor; discriminate.
    + repeat constructor.
  - apply Forall_cons_iff in Hg as [[Hne Hall] Hg'].
    simpl in Hc, Hs, Hne, Hall.
    destruct (sale_day_x p =? k) eqn:Ek.
    + apply Z.eqb_eq in Ek; split; [split | simpl; rewrite <- Hc; reflexivity].
      * constructor; [| exact Hg']; simpl; split; [discriminate | constructor; assumption].
      * exact Hs.
    + apply Z.eqb_neq in Ek; split; [split | simpl; rewrite <- Hc; reflexivity].
      * constructor; [simpl; split; [discriminate | repeat constructor] |].
        constructor; [split; assumption | exact Hg'].
      * assert (Hlt : sale_day_x p < k).
        { destruct g as [| q g]; [contradiction |].
          apply Forall_cons_iff in Hall as [Hq _].
          assert (Hin : In q l) by (rewrite <- Hc; left; reflexivity).
          rewrite Forall_forall in Hp; specialize (Hp q Hin); unfold day_le in Hp; lia. }
        simpl; constructor; [exact Hs |].
        apply StronglySorted_inv in Hs as [Hs' Hks].
        constructor; [exact Hlt |].
        eapply Forall_impl; [| exact Hks]; intros a Ha; simpl in Ha; lia.
Qed.

Lemma add_group_eq (g : list Passenger) :
  forall acc, add_group acc g = (fst acc + Z.of_nat (length g), snd acc + total_price g).
Proof.
  unfold add_group; induction g as [| p g IH]; intros [hc w]; simpl.
  - f_equal; lia.
  - rewrite IH; simpl; f_equal; lia.
Qed.

Lemma sum_prices_total (l : list Passenger) : sum_prices l = total_price l.
Proof.
  unfold sum_prices.
  assert (H : forall a, fold_left (fun acc p => acc + price p) l a = a + total_price l).
  { induction l as [| p l IH]; intros a; simpl; [lia | rewrite IH; lia]. }
  rewrite H; reflexivity.
Qed.

Lemma count_upto_app d l1 l2 :
  count_upto d (l1 ++ l2) = (count_upto d l1 + count_upto d l2)%nat.
Proof. unfold count_upto; rewrite filter_app, length_app; reflexivity. Qed.

Lemma total_price_app l1 l2 : total_price (l1 ++ l2) = total_price l1 + total_price l2.
Proof. induction l1 as [| p l1 IH]; simpl; [reflexivity | rewrite IH; lia]. Qed.

Lemma price_upto_app d l1 l2 : price_upto d (l1 ++ l2) = price_upto d l1 + price_upto d l2.
Proof. unfold price_upto; rewrite filter_app; apply total_price_app. Qed.

Lemma upto_all d l :
  Forall (fun p => sale_day_x p <= d) l ->
  count_upto d l = length l /\ price_upto d l = total_price l.
Proof.
  unfold count_upto, price_upto; induction 1 as [| p l Hp Hl [IH1 IH2]]; simpl;
    [split; reflexivity |].
  apply Z.leb_le in Hp; rewrite Hp; simpl; rewrite IH1, IH2; split; reflexivity.
Qed.

Lemma upto_none d l :
  Forall (fun p => d < sale_day_x p) l ->
  count_upto d l = 0%nat /\ price_upto d l = 0.
Proof.
  unfold count_upto, price_upto; induction 1 as [| p l Hp Hl [IH1 IH2]]; simpl;
    [split; reflexivity |].
  assert (E : (sale_day_x p <=? d) = false) by (apply Z.leb_gt; lia).
  rewrite E; split; assumption.
Qed.

Lemma upto_perm d l l' :
  Permutation l l' ->
  count_upto d l = count_upto d l' /\ price_upto d l = price_upto d l'.
Proof.
  unfold count_upto, price_upto; induction 1 as [| p l l' H [IH1 IH2] | p q l | l l' l'' H1 [A1 A2] H2 [B1 B2]];
    simpl.
  - split; reflexivity.
  - destruct (sale_day_x p <=? d); simpl; rewrite ?IH1, ?IH2; split; reflexivity.
  - destruct (sale_day_x p <=? d), (sale_day_x q <=? d); simpl; split; try reflexivity; lia.
  - split; congruence.
Qed.

Lemma total_price_perm l l' : Permutation l l' -> total_price l = total_price l'.
Proof. induction 1; simpl; lia. Qed.

Lemma groups_ok_tail k g rest : groups_ok ((k, g) :: rest) -> groups_ok rest.
Proof.
  intros [Hg Hs]; apply Forall_cons_iff in Hg as [_ Hg].
  apply StronglySorted_inv in Hs as [Hs _]; split; assumption.
Qed.

Lemma groups_ok_members gs :
  groups_ok gs -> forall p, In p (concat (map snd gs)) -> In (sale_day_x p) (map fst gs).
Proof.
  intros [Hg _] p Hp; apply in_concat in Hp; destruct Hp as [g [Hg1 Hp]].
  apply in_map_iff in Hg1; destruct Hg1 as [[k g'] [Eg Hin]]; simpl in Eg; subst g'.
  rewrite Forall_forall in Hg; destruct (Hg _ Hin) as [_ Hall].
  rewrite Forall_forall in Hall; rewrite (Hall p Hp).
  apply in_map_iff; exists (k, g); split; [reflexivity | exact Hin].
Qed.

Lemma groups_ok_later k g rest :
  groups_ok ((k, g) :: rest) -> Forall (fun p => k < sale_day_x p) (concat (map snd rest)).
Proof.
  intros Hok; pose proof (groups_ok_members _ (groups_ok_tail _ _ _ Hok)) as Hm.
  destruct Hok as [_ Hs]; apply StronglySorted_inv in Hs as [_ Hks].
  rewrite Forall_forall in Hks |- *; intros p Hp; apply Hks, Hm, Hp.
Qed.

Lemma history_loop_days acc gs : map triplet_day (history_loop acc gs) = map fst gs.
Proof.
  revert acc; induction gs as [| [k g] gs IH]; intros acc; simpl; [reflexivity |].
  rewrite IH; reflexivity.
Qed.

Lemma history_loop_values gs :
  groups_ok gs -> forall acc t, In t (history_loop acc gs) ->
  triplet_count t = fst acc + Z.of_nat (count_upto (triplet_day t) (concat (map snd gs))) /\
  triplet_money t = snd acc + price_upto (triplet_day t) (concat (map snd gs)).
Proof.
  induction gs as [| [k g] rest IH]; intros Hok acc t Ht; simpl in Ht; [contradiction |].
  pose proof (groups_ok_later _ _ _ Hok) as Hlater.
  destruct Hok as [Hg Hs]; apply Forall_cons_iff in Hg as [[Hne Hall] Hg']; simpl in Hne, Hall.
  simpl concat; rewrite add_group_eq in Ht.
  destruct Ht as [<- | Ht].
  - unfold triplet_count, triplet_money, triplet_day; simpl.
    rewrite count_upto_app, price_upto_app.
    assert (Hle : Forall (fun p => sale_day_x p <= k) g)
      by (eapply Forall_impl; [| exact Hall]; intros p Hp; simpl in Hp; lia).
    destruct (upto_all k g Hle) as [A1 A2].
    destruct (upto_none k _ Hlater) as [B1 B2].
    rewrite A1, A2, B1, B2; split; lia.
  - assert (Hok' : groups_ok rest)
      by (apply StronglySorted_inv in Hs as [Hs _]; split; assumption).
    destruct (IH Hok' _ t Ht) as [H1 H2]; simpl in H1, H2.
    assert (Hd : In (triplet_day t) (map fst rest))
      by (rewrite <- (history_loop_days (fst acc + Z.of_nat (length g), snd acc + total_price g));
          apply in_map; exact Ht).
    apply StronglySorted_inv in Hs as [_ Hks]; rewrite Forall_forall in Hks.
    specialize (Hks _ Hd); simpl in Hks.
    rewrite count_upto_app, price_upto_app.
    assert (Hle : Forall (fun p => sale_day_x p <= triplet_day t) g)
      by (eapply Forall_impl; [| exact Hall]; intros p Hp; simpl in Hp; lia).
    destruct (upto_all (triplet_day t) g Hle) as [A1 A2].
    rewrite A1, A2, H1, H2; split; lia.
Qed.

Lemma history_loop_cons acc k g rest :
  history_loop acc ((k, g) :: rest) =
  (k, fst (add_group acc g), snd (add_group acc g)) :: history_loop (add_group acc g) rest.
Proof. reflexivity. Qed.

Lemma history_loop_last gs :
  Forall (fun kg => snd kg <> []) gs -> gs <> [] ->
  forall acc dflt, exists d,
    last (history_loop acc gs) dflt =
      (d, fst acc + Z.of_nat (length (concat (map snd gs))),
          snd acc + total_price (concat (map snd gs))).
Proof.
  induction gs as [| [k g] rest IH]; intros Hne Hnil acc dflt; [contradiction |].
  rewrite history_loop_cons, add_group_eq; simpl fst; simpl snd.
  apply Forall_cons_iff in Hne as [_ Hne].
  destruct rest as [| kg rest].
  - exists k; simpl; rewrite app_nil_r; reflexivity.
  - destruct (IH Hne ltac:(discriminate)
               (fst acc + Z.of_nat (length g), snd acc + total_price g)
               (k, fst acc + Z.of_nat (length g), snd acc + total_price g)) as [d Hd].
    exists d; rewrite last_cons_default, Hd; simpl fst; simpl snd.
    change (concat (map snd ((k, g) :: kg :: rest)))
      with (g ++ concat (map snd (kg :: rest))).
    rewrite length_app, total_price_app, Nat2Z.inj_add.
    f_equal; [f_equal |]; lia.
Qed.

Lemma history_loop_count_sorted gs :
  Forall (fun kg => snd kg <> []) gs ->
  forall acc, Sorted (fun t u => triplet_count t < triplet_count u) (history_loop acc gs).
Proof.
  induction 1 as [| [k g] rest Hg Hrest IH]; intros acc; [constructor |].
  rewrite history_loop_cons; constructor; [apply IH |].
  destruct rest as [| [k' g'] rest']; [constructor |].
  rewrite history_loop_cons; constructor.
  apply Forall_cons_iff in Hrest as [Hg' _]; simpl in Hg'.
  unfold triplet_count; simpl; rewrite (add_group_eq g' (add_group acc g)).
  destruct g' as [| q g']; [contradiction | simpl; lia].
Qed.

Lemma total_price_nonneg l : Forall (fun p => 0 <= price p) l -> 0 <= total_price l.
Proof. induction 1; simpl; lia. Qed.

Lemma history_loop_money_sorted gs :
  Forall (fun kg => Forall (fun p => 0 <= price p) (snd kg)) gs ->
  forall acc, Sorted (fun t u => triplet_money t <= triplet_money u) (history_loop acc gs).
Proof.
  induction 1 as [| [k g] rest Hg Hrest IH]; intros acc; [constructor |].
  rewrite history_loop_cons; constructor; [apply IH |].
  destruct rest as [| [k' g'] rest']; [constructor |].
  rewrite history_loop_cons; constructor.
  apply Forall_cons_iff in Hrest as [Hg' _]; simpl in Hg'.
  unfold triplet_money; simpl; rewrite (add_group_eq g' (add_group acc g)); simpl.
  pose proof (total_price_nonneg _ Hg'); lia.
Qed.

(** Claim C3 (amended): [history()] is the reference computation: its days
    are strictly ascending and are exactly the distinct sale days of the
    OD's passengers (one entry each); the entry of day [d] holds the number
    and the summed price of the passengers sold on or before [d]; the counts
    strictly increase; the revenues never decrease when no price is
    negative; the last entry holds the passenger count and the sum of all
    prices. *)
Theorem history_cumulative_by_day (od : OD) :
  let ps := od_passengers od in
  let h := history od in
  StronglySorted Z.lt (map triplet_day h) /\
  (forall d, In d (map triplet_day h) <-> exists p, In p ps /\ sale_day_x p = d) /\
  (forall t, In t h ->
     triplet_count t = Z.of_nat (count_upto (triplet_day t) ps) /\
     triplet_money t = price_upto (triplet_day t) ps) /\
  Sorted (fun t u => triplet_count t < triplet_count u) h /\
  ((forall p, In p ps -> 0 <= price p) ->
     Sorted (fun t u => triplet_money t <= triplet_money u) h) /\
  (ps <> [] -> exists d, last h (0, 0, 0) = (d, Z.of_nat (length ps), sum_prices ps)).
Proof.
  intros ps h; subst ps h; unfold history; set (ps := od_passengers od).
  pose proof (sort_by_day_perm ps) as Hperm.
  destruct (groupby_day_sorted _ (sort_by_day_sorted ps)) as [Hok Hcat].
  set (gs := groupby_day (sort_by_day ps)) in *.
  assert (Hne : Forall (fun kg => snd kg <> []) gs)
    by (eapply Forall_impl; [| exact (proj1 Hok)]; intros kg [H _]; exact H).
  split; [rewrite history_loop_days; exact (proj2 Hok) |].
  split.
  { intros d; rewrite history_loop_days; split.
    - intros Hd; apply in_map_iff in Hd; destruct Hd as [[k g] [Ek Hin]]; simpl in Ek; subst k.
      destruct Hok as [Hg _]; rewrite Forall_forall in Hg; destruct (Hg _ Hin) as [Hgne Hall].
      simpl in Hgne, Hall; destruct g as [| q g]; [contradiction |].
      apply Forall_cons_iff in Hall as [Hq _].
      exists q; split; [| exact Hq].
      apply (Permutation_in _ (Permutation_sym Hperm)); rewrite <- Hcat.
      apply in_concat; exists (q :: g); split; [| left; reflexivity].
      apply in_map_iff; exists (d, q :: g); split; [reflexivity | exact Hin].
    - intros [p [Hp <-]]; apply groups_ok_members; [exact Hok |].
      rewrite Hcat; apply (Permutation_in _ Hperm); exact Hp. }
  split.
  { intros t Ht; destruct (history_loop_values gs Hok (0, 0) t Ht) as [H1 H2].
    rewrite Hcat in H1, H2; simpl in H1, H2.
    destruct (upto_perm (triplet_day t) _ _ Hperm) as [P1 P2].
    rewrite P1, P2; split; assumption. }
  split; [apply history_loop_count_sorted; exact Hne |].
  split.
  { intros Hpos; apply history_loop_money_sorted.
    apply Forall_forall; intros [k g] Hin; apply Forall_forall; intros p Hp; apply Hpos.
    apply (Permutation_in _ (Permutation_sym Hperm)); rewrite <- Hcat.
    apply in_concat; exists g; split; [| exact Hp].
    apply in_map_iff; exists (k, g); split; [reflexivity | exact Hin]. }
  intros Hps.
  assert (Hgs : gs <> []).
  { intros E; apply Hps; apply Permutation_nil; apply Permutation_sym.
    eapply perm_trans; [exact Hperm |]; rewrite <- Hcat, E; constructor. }
  destruct (history_loop_last gs Hne Hgs (0, 0) (0, 0, 0)) as [d Hd].
  exists d; rewrite Hd, Hcat; simpl.
  rewrite <- (Permutation_length Hperm), sum_prices_total, (total_price_perm _ _ Hperm).
  reflexivity.
Qed.

(** Claim C3 as stated fails: with a negative price the revenue goes down
    from one entry of [history()] to the next. *)
Lemma history_revenue_can_decrease :
  history refund_od = [(-2, 1, 10); (-1, 2, 5)] /\
  ~ Sorted (fun t u => triplet_count t <= triplet_count u /\ triplet_money t <= triplet_money u)
           (history refund_od).
Proof.
  split; [vm_compute; reflexivity |].
  change (history refund_od) with [(-2, 1, 10); (-1, 2, 5)].
  intros H; inversion H as [| ? ? _ Hhd]; subst.
  inversion Hhd as [| ? ? [_ Hm]]; subst.
  unfold triplet_money in Hm; simpl in Hm; lia.
Qed.

(** ** Further properties of the code *)

(** *** [OD.forecast]: errors, revenue, bounds *)

Lemma forecast_day_none (demand : list (Z * Z)) (P : Pricing) :
  forall sold money,
    forecast_day demand sold money P = None <->
    exists p, In p (map fst P) /\ dict_get p demand = None.
Proof.
  induction P as [| [p c] rest IH]; intros sold money; simpl.
  - split; [discriminate | intros [q [[] _]]].
  - destruct (dict_get p demand) as [dp |] eqn:Ed.
    + assert (Hrest : forall s m,
                 forecast_day demand s m rest = None <->
                 exists q, (p = q \/ In q (map fst rest)) /\ dict_get q demand = None).
      { intros s m; rewrite IH; split.
        - intros [q [Hq Hn]]; exists q; split; [right; exact Hq | exact Hn].
        - intros [q [[<- | Hq] Hn]]; [congruence | exists q; split; assumption]. }
      destruct (Z.min (dp - sold) c <=? 0).
      * rewrite <- (Hrest sold money).
        destruct (forecast_day demand sold money rest) as [[[? ?] ?] |]; split;
          congruence.
      * rewrite <- (Hrest (sold + Z.min (dp - sold) c) (money + p * Z.min (dp - sold) c)).
        destruct (forecast_day demand (sold + Z.min (dp - sold) c)
                    (money + p * Z.min (dp - sold) c) rest) as [[[? ?] ?] |]; split;
          congruence.
    + split; [intros _; exists p; split; [left; reflexivity | exact Ed] | reflexivity].
Qed.

Lemma forecast_loop_none (dm : list (Z * list (Z * Z))) :
  forall head_count money P,
    forecast_loop head_count money P dm = None <->
    exists day demand p, In (day, demand) dm /\ In p (map fst P) /\ dict_get p demand = None.
Proof.
  induction dm as [| [day demand] rest IH]; intros head_count money P; simpl.
  - split; [discriminate | intros (? & ? & ? & [] & _)].
  - destruct (forecast_day demand 0 money P) as [[[sold m1] P1] |] eqn:E1.
    + assert (Hk : map fst P1 = map fst P)
        by (apply forecast_day_iff in E1; eapply day_scan_keys; exact E1).
      assert (Hhd : forall p, In p (map fst P) -> dict_get p demand <> None).
      { intros p Hp Hn.
        assert (forecast_day demand 0 money P = None)
          by (apply forecast_day_none; exists p; split; assumption).
        congruence. }
      destruct (forecast_loop (head_count + sold) m1 P1 rest) as [[o f] |] eqn:E2.
      * split; [discriminate |].
        intros (d & dem & p & [Hin | Hin] & Hp & Hn).
        -- inversion Hin; subst; exfalso; exact (Hhd p Hp Hn).
        -- assert (forecast_loop (head_count + sold) m1 P1 rest = None).
           { apply IH; exists d, dem, p; rewrite Hk; split; [| split]; assumption. }
           congruence.
      * split; [intros _ | reflexivity].
        apply IH in E2; destruct E2 as (d & dem & p & Hin & Hp & Hn).
        exists d, dem, p; rewrite Hk in Hp; split; [right; exact Hin | split; assumption].
    + split; [intros _ | reflexivity].
      apply forecast_day_none in E1; destruct E1 as [p [Hp Hn]].
      exists day, demand, p; split; [left; reflexivity | split; assumption].
Qed.

(** [forecast] raises [KeyError] exactly when some day of the demand matrix
    has no entry for some price level of [pricing]. *)
Theorem forecast_key_error_iff (od : OD) (pricing : Pricing)
    (demand_matrix : list (Z * list (Z * Z))) :
  forecast od pricing demand_matrix = None <->
  exists day demand p, In (day, demand) demand_matrix /\ In p (map fst pricing) /\
                       dict_get p demand = None.
Proof. apply forecast_loop_none. Qed.

Lemma sold_value_split (P Q R : Pricing) :
  map fst P = map fst Q -> map fst Q = map fst R ->
  sold_value P R = sold_value P Q + sold_value Q R.
Proof.
  revert Q R; induction P as [| [p c] P IH]; intros [| [q d] Q] [| [r e] R] H1 H2;
    simpl in *; try discriminate; [reflexivity |].
  inversion H1; inversion H2; subst.
  rewrite (IH Q R) by assumption; lia.
Qed.

Lemma sold_value_refl (P : Pricing) : sold_value P P = 0.
Proof. induction P as [| [p c] P IH]; simpl; [reflexivity | rewrite IH; lia]. Qed.

Lemma day_scan_money demand sold money P sold' money' P' :
  day_scan_spec demand sold money P sold' money' P' ->
  money' = money + sold_value P P'.
Proof. induction 1; simpl; lia. Qed.

Lemma final_money_cons (m : Z) (t : Z * Z * Z) (out : list (Z * Z * Z)) :
  final_money m (t :: out) = final_money (triplet_money t) out.
Proof. unfold final_money; simpl map; apply last_cons_default. Qed.

Lemma forecast_spec_money hc money P dm out final :
  forecast_spec hc money P dm out final ->
  final_money money out = money + sold_value P final.
Proof.
  induction 1 as [| hc money P day demand rest sold money' P' out final Hd Hs IH].
  - unfold final_money; simpl; rewrite sold_value_refl; lia.
  - rewrite final_money_cons; unfold triplet_money at 1; simpl; rewrite IH.
    rewrite (day_scan_money _ _ _ _ _ _ _ Hd).
    assert (K1 : map fst P' = map fst P) by (eapply day_scan_keys; exact Hd).
    assert (K2 : map fst final = map fst P').
    { destruct (forecast_spec_effect _ _ _ _ _ _ Hs) as [_ [Hle _]].
      clear -Hle; induction Hle as [| a b l l' [Hk _] _ IH]; simpl; congruence. }
    rewrite (sold_value_split P P' final) by congruence; lia.
Qed.

(** Revenue accounting of [forecast]: the last emitted revenue is the OD's
    current revenue plus, over the price levels, the price times the number
    of seats [forecast] took off that level of [pricing]. *)
Theorem forecast_revenue_accounting (od : OD) (pricing : Pricing)
    (demand_matrix : list (Z * list (Z * Z))) out final :
  forecast od pricing demand_matrix = Some (out, final) ->
  final_money (sum_prices (od_passengers od)) out =
    sum_prices (od_passengers od) + sold_value pricing final.
Proof.
  intros E; apply forecast_loop_iff in E; eapply forecast_spec_money; exact E.
Qed.

Lemma forecast_revenue_accounting_witness :
  exists out final,
    forecast example_od example_pricing example_demand_matrix = Some (out, final) /\
    final_money (sum_prices (od_passengers example_od)) out =
      sum_prices (od_passengers example_od) + sold_value example_pricing final.
Proof.
  destruct (forecast example_od example_pricing example_demand_matrix)
    as [[out final] |] eqn:E; [| vm_compute in E; discriminate E].
  exists out, final; split; [reflexivity |].
  exact (forecast_revenue_accounting example_od example_pricing example_demand_matrix
           out final E).
Defined.








Lemma day_scan_sold_out demand sold money P sold' money' P' :
  day_scan_spec demand sold money P sold' money' P' ->
  Forall (fun e => snd e <= 0) P -> sold' = sold /\ money' = money /\ P' = P.
Proof.
  induction 1 as [| p c rest dp sold money sold' money' rest' Hd Hf Hs IH
                  | p c rest dp sold money sold' money' rest' Hd Hf Hs IH];
    intros Hz; [repeat split |
                inversion Hz as [| ? ? Hc Hz']; subst; simpl in Hc ..].
  - destruct (IH Hz') as [-> [-> ->]]; repeat split.
  - exfalso; lia.
Qed.

Lemma forecast_spec_sold_out hc money P dm out final :
  forecast_spec hc money P dm out final ->
  Forall (fun e => snd e <= 0) P ->
  out = map (fun dd => (fst dd, hc, money)) dm /\ final = P.
Proof.
  induction 1 as [| hc money P day demand rest sold money' P' out final Hd Hs IH];
    intros Hz; [split; reflexivity |].
  destruct (day_scan_sold_out _ _ _ _ _ _ _ Hd Hz) as [-> [-> ->]].
  rewrite Z.add_0_r in IH |- *; destruct (IH Hz) as [-> ->]; split; reflexivity.
Qed.

(** With no seat left at any price level, [forecast] sells nothing: every
    day repeats the OD's current count and revenue, and [pricing] is left
    as it was. *)
Theorem forecast_sold_out (od : OD) (pricing : Pricing)
    (demand_matrix : list (Z * list (Z * Z))) out final :
  Forall (fun e => snd e <= 0) pricing ->
  forecast od pricing demand_matrix = Some (out, final) ->
  out = map (fun dd => (fst dd, Z.of_nat (length (od_passengers od)),
                        sum_prices (od_passengers od))) demand_matrix /\
  final = pricing.
Proof.
  intros Hz E; apply forecast_loop_iff in E; eapply forecast_spec_sold_out; eassumption.
Qed.

Definition example_pricing_sold_out : Pricing := [(10, 0); (20, 0); (30, 0); (40, 0); (50, 0)].

Lemma forecast_sold_out_witness :
  exists out final,
    Forall (fun e => snd e <= 0) example_pricing_sold_out /\
    forecast example_od example_pricing_sold_out example_demand_matrix = Some (out, final) /\
    out = map (fun dd => (fst dd, 4, 130)) example_demand_matrix /\
    final = example_pricing_sold_out.
Proof.
  destruct (forecast example_od example_pricing_sold_out example_demand_matrix)
    as [[out final] |] eqn:E; [| vm_compute in E; discriminate E].
  assert (Hz : Forall (fun e => snd e <= 0) example_pricing_sold_out)
    by (repeat constructor; simpl; lia).
  exists out, final; split; [exact Hz | split; [reflexivity |]].
  exact (forecast_sold_out example_od example_pricing_sold_out example_demand_matrix
           out final Hz E).
Defined.

Lemma sum_counts_nonneg (P : Pricing) : Forall (fun e => 0 <= snd e) P -> 0 <= sum_counts P.
Proof. induction 1; simpl; lia. Qed.

(** With non-negative seat counts, the count reached at the end of the
    forecast never exceeds the OD's current passengers plus all the seats
    [pricing] offered at the start. *)
Theorem forecast_total_within_inventory (od : OD) (pricing : Pricing)
    (demand_matrix : list (Z * list (Z * Z))) out final :
  Forall (fun e => 0 <= snd e) pricing ->
  forecast od pricing demand_matrix = Some (out, final) ->
  final_count (Z.of_nat (length (od_passengers od))) out <=
    Z.of_nat (length (od_passengers od)) + sum_counts pricing.
Proof.
  intros Hn E; apply forecast_loop_iff in E.
  destruct (forecast_spec_effect _ _ _ _ _ _ E) as [_ [_ H]].
  pose proof (sum_counts_nonneg _ (forecast_spec_nonneg _ _ _ _ _ _ E Hn)); lia.
Qed.

Lemma forecast_total_within_inventory_witness :
  exists out final,
    Forall (fun e => 0 <= snd e) example_pricing /\
    forecast example_od example_pricing example_demand_matrix = Some (out, final) /\
    final_count 4 out <= 4 + sum_counts example_pricing.
Proof.
  destruct (forecast example_od example_pricing example_demand_matrix)
    as [[out final] |] eqn:E; [| vm_compute in E; discriminate E].
  assert (Hn : Forall (fun e => 0 <= snd e) example_pricing)
    by (repeat constructor; simpl; lia).
  exists out, final; split; [exact Hn | split; [reflexivity |]].
  exact (forecast_total_within_inventory example_od example_pricing example_demand_matrix
           out final Hn E).
Defined.

(** *** [Service.load_itinerary]: the legs of any itinerary *)

Section ItineraryLegs.
Local Open Scope nat_scope.

Lemma last_nth_default (l : list Station) (x : Station) :
  l <> [] -> last l x = nth (length l - 1) l 0.
Proof.
  induction l as [| a l IH]; intros H; [contradiction H; reflexivity |].
  destruct l as [| b l]; [reflexivity |].
  transitivity (last (b :: l) x); [reflexivity |].
  rewrite IH by discriminate; cbn [length].
  rewrite !Nat.sub_succ, !Nat.sub_0_r; reflexivity.
Qed.

Lemma load_itinerary_legs_aux (itinerary : list Station) :
  svc_legs (load_itinerary new_service itinerary) = itinerary_legs itinerary /\
  svc_next_id (load_itinerary new_service itinerary) = length itinerary - 1.
Proof.
  induction itinerary as [| x pre IH] using rev_ind; [split; reflexivity |].
  rewrite load_itinerary_snoc; unfold load_itinerary_step.
  destruct (Nat.eqb (length pre) 0) eqn:E0.
  - apply Nat.eqb_eq, length_zero_iff_nil in E0; subst pre; split; reflexivity.
  - apply Nat.eqb_neq in E0.
    destruct IH as [IHl IHn]; rewrite firstn_all; cbn [svc_legs svc_next_id].
    rewrite IHl, IHn; unfold itinerary_legs; rewrite length_app; cbn [length].
    split; [| lia].
    replace (length pre + 1 - 1) with (S (length pre - 1)) by lia.
    rewrite seq_S, map_app; f_equal.
    + apply map_ext_in; intros i Hi; apply in_seq in Hi; unfold itinerary_leg.
      f_equal; symmetry; apply app_nth1; lia.
    + unfold itinerary_leg; cbn [map Nat.add]; f_equal; f_equal.
      * rewrite last_nth_default by (intros H; subst pre; contradiction E0; reflexivity).
        symmetry; apply app_nth1; lia.
      * replace (S (length pre - 1)) with (length pre + 0) by lia.
        rewrite app_nth2_plus; reflexivity.
Qed.

(** For every itinerary, even one that repeats a station, loading it into a
    fresh service creates [len(itinerary) - 1] legs in itinerary order, leg
    number [i] going from [itinerary[i]] to [itinerary[i + 1]], all of them
    distinct objects. *)
Theorem load_itinerary_legs (itinerary : list Station) :
  svc_legs (load_itinerary new_service itinerary) = itinerary_legs itinerary /\
  svc_next_id (load_itinerary new_service itinerary) = length itinerary - 1.
Proof. exact (load_itinerary_legs_aux itinerary). Qed.

Lemma nth_neq_of_nodup (l : list Station) (i j : nat) :
  NoDup l -> i < length l -> j < length l -> i <> j -> nth i l 0 <> nth j l 0.
Proof.
  intros Hnd Hi Hj Hij Heq; apply Hij.
  exact (proj1 (NoDup_nth l 0) Hnd i j Hi Hj Heq).
Qed.

Lemma legs_until_seq (it : list Station) (d : Station) (start n : nat) :
  (forall i, start <= i < start + n -> nth i it 0 <> d) ->
  legs_until d (map (itinerary_leg it) (seq start n)) = map (itinerary_leg it) (seq start n).
Proof.
  intros H; apply legs_until_all, Forall_forall; intros l Hl.
  apply in_map_iff in Hl; destruct Hl as [i [<- Hi]]; apply in_seq in Hi.
  apply H; lia.
Qed.

(** [OD.legs] of the OD [(itinerary[a], itinerary[b])], [a < b], on the legs
    of an itinerary of distinct stations: legs number [a] to [b - 1]. *)
Lemma itinerary_od_legs (it : list Station) (a b : nat) :
  NoDup it -> a < b < length it ->
  od_legs_from (nth a it 0) (nth b it 0) (itinerary_legs it) =
  map (itinerary_leg it) (seq a (b - a)).
Proof.
  intros Hnd Hab; unfold itinerary_legs.
  replace (length it - 1) with (a + S (length it - 2 - a)) by lia.
  rewrite seq_app, map_app; cbn [seq map plus].
  rewrite od_legs_from_first.
  2: { apply Forall_forall; intros l Hl; apply in_map_iff in Hl.
       destruct Hl as [i [<- Hi]]; apply in_seq in Hi.
       apply nth_neq_of_nodup; (assumption || lia). }
  2: reflexivity.
  replace (b - a) with (S (b - S a)) by lia; cbn [seq map]; f_equal.
  destruct (Nat.eq_dec b (length it - 1)) as [Hb | Hb].
  - replace (b - S a) with (length it - 2 - a) by lia.
    apply legs_until_seq; intros i Hi.
    apply nth_neq_of_nodup; (assumption || lia).
  - replace (length it - 2 - a) with (b - S a + S (length it - 2 - b)) by lia.
    rewrite seq_app, map_app; cbn [seq map].
    replace (S a + (b - S a)) with b by lia.
    apply legs_until_stop; [| reflexivity].
    apply Forall_forall; intros l Hl; apply in_map_iff in Hl.
    destruct Hl as [i [<- Hi]]; apply in_seq in Hi.
    apply nth_neq_of_nodup; (assumption || lia).
Qed.

Lemma ods_get_entries (G : Key -> list Passenger) (K : list Key) (k : Key) :
  In k K -> ods_get k (map (od_entry_with G) K) = Some (mkOD (fst k) (snd k) (G k)).
Proof.
  induction K as [| k0 K IH]; intros Hin; [destruct Hin |].
  cbn [map ods_get od_entry_with].
  destruct (key_eqb k k0) eqn:E.
  - apply key_eqb_true_iff in E; subst k0; reflexivity.
  - destruct Hin as [-> | Hin]; [rewrite key_eqb_refl in E; discriminate E |].
    apply IH; exact Hin.
Qed.

(** On a service freshly loaded with an itinerary of distinct stations, the
    OD [(itinerary[a], itinerary[b])] with [a < b] exists, holds no
    passenger, and its [legs] are exactly the legs number [a], [a + 1], ...,
    [b - 1]. *)
Theorem loaded_od_legs (itinerary : list Station) (a b : nat) :
  NoDup itinerary -> a < b < length itinerary ->
  let s := load_itinerary new_service itinerary in
  exists od,
    ods_get (nth a itinerary 0, nth b itinerary 0) (svc_ods s) = Some od /\
    od = mkOD (nth a itinerary 0) (nth b itinerary 0) [] /\
    od_legs s od = map (itinerary_leg itinerary) (seq a (b - a)).
Proof.
  intros Hnd Hab s.
  destruct (load_itinerary_state itinerary Hnd) as [Hods _].
  destruct (load_itinerary_legs_aux itinerary) as [Hlegs _].
  exists (mkOD (nth a itinerary 0) (nth b itinerary 0) []); split; [| split; [reflexivity |]].
  - subst s; rewrite Hods.
    change (map od_entry (ordered_pairs itinerary))
      with (map (od_entry_with (fun _ => [])) (ordered_pairs itinerary)).
    apply ods_get_entries, ordered_pairs_in; exists a, b; split; [lia | reflexivity].
  - unfold od_legs; subst s; rewrite Hlegs; cbn [od_origin od_destination].
    apply itinerary_od_legs; assumption.
Qed.

Lemma loaded_od_legs_witness :
  NoDup example_itinerary4 /\ 1 < 3 < length example_itinerary4 /\
  let s := load_itinerary new_service example_itinerary4 in
  exists od,
    ods_get (nth 1 example_itinerary4 0, nth 3 example_itinerary4 0) (svc_ods s) = Some od /\
    od = mkOD (nth 1 example_itinerary4 0) (nth 3 example_itinerary4 0) [] /\
    od_legs s od = map (itinerary_leg example_itinerary4) (seq 1 (3 - 1)).
Proof.
  assert (Hnd : NoDup example_itinerary4)
    by (repeat constructor; simpl; intros H; repeat destruct H as [H | H]; discriminate || exact H).
  assert (Hab : 1 < 3 < length example_itinerary4) by (simpl; lia).
  split; [exact Hnd | split; [exact Hab |]].
  exact (loaded_od_legs example_itinerary4 1 3 Hnd Hab).
Defined.

Lemma leg_in_span (it : list Station) (a n i : nat) :
  leg_in (itinerary_leg it i) (map (itinerary_leg it) (seq a n)) =
  (a <=? i) && (i <? a + n).
Proof.
  apply Bool.eq_iff_eq_true; unfold leg_in.
  rewrite existsb_exists, andb_true_iff, Nat.leb_le, Nat.ltb_lt; split.
  - intros [l [Hl Heq]]; apply in_map_iff in Hl; destruct Hl as [j [<- Hj]].
    apply in_seq in Hj; apply Nat.eqb_eq in Heq; cbn in Heq; lia.
  - intros H; exists (itinerary_leg it i); split; [| apply Nat.eqb_refl].
    apply in_map, in_seq; lia.
Qed.

End ItineraryLegs.

(** *** [Service.load_passenger_manifest]: what it changes *)

Section ManifestLoading.
Local Open Scope nat_scope.

Lemma ods_set_existing (k : Key) (v v' : OD) (m : list (Key * OD)) :
  ods_get k m = Some v ->
  od_origin v' = od_origin v -> od_destination v' = od_destination v ->
  ods_shape (ods_set k v' m) = ods_shape m /\
  total_passengers (ods_set k v' m) + length (od_passengers v) =
    total_passengers m + length (od_passengers v').
Proof.
  induction m as [| [k0 v0] m IH]; intros Hg Ho Hd; [discriminate Hg |].
  cbn [ods_get ods_set] in *; unfold ods_shape, total_passengers in *.
  destruct (key_eqb k k0).
  - injection Hg as <-; cbn [map fold_right fst snd]; rewrite Ho, Hd; split; [reflexivity | lia].
  - destruct (IH Hg Ho Hd) as [H1 H2]; cbn [map fold_right fst snd].
    rewrite H1; split; [reflexivity | lia].
Qed.

(** [load_passenger_manifest] never touches the legs, nor the keys of
    [service.ods] and their ODs' origins and destinations, not even when it
    raises; it adds at most one passenger per manifest entry, and exactly
    one per entry precisely when it raises nothing. *)
Theorem load_manifest_frame (passengers : list Passenger) (s : Service) :
  let r := load_passenger_manifest s passengers in
  svc_legs (fst r) = svc_legs s /\
  svc_next_id (fst r) = svc_next_id s /\
  ods_shape (svc_ods (fst r)) = ods_shape (svc_ods s) /\
  total_passengers (svc_ods (fst r)) <= total_passengers (svc_ods s) + length passengers /\
  (total_passengers (svc_ods (fst r)) = total_passengers (svc_ods s) + length passengers <->
   snd r = None).
Proof.
  revert s; induction passengers as [| p ps IH]; intros s r; subst r;
    cbn [load_passenger_manifest fst snd length].
  - rewrite Nat.add_0_r; split; [reflexivity | split; [reflexivity | split; [reflexivity |]]].
    split; [lia | split; reflexivity].
  - destruct (ods_get (passenger_key p) (svc_ods s)) as [od |] eqn:E.
    + pose proof (IH (mkService (svc_legs s)
                    (ods_set (passenger_key p)
                       (mkOD (od_origin od) (od_destination od) (od_passengers od ++ [p]))
                       (svc_ods s)) (svc_next_id s))) as H.
      cbv zeta in H; cbn [svc_legs svc_next_id svc_ods] in H.
      destruct H as [H1 [H2 [H3 [H4 H5]]]].
      destruct (ods_set_existing (passenger_key p) od
                  (mkOD (od_origin od) (od_destination od) (od_passengers od ++ [p]))
                  (svc_ods s) E eq_refl eq_refl) as [S1 S2].
      cbn [od_passengers] in S2; rewrite length_app in S2; cbn [length] in S2.
      rewrite H1, H2, H3, S1; split; [reflexivity | split; [reflexivity | split; [reflexivity |]]].
      split; [lia |]; rewrite <- H5; split; intros; lia.
    + cbn [fst snd]; split; [reflexivity | split; [reflexivity | split; [reflexivity |]]].
      split; [lia | split; [lia | discriminate]].
Qed.

Lemma ods_get_some_in (k : Key) (v : OD) (m : list (Key * OD)) :
  ods_get k m = Some v -> In k (map fst m).
Proof.
  induction m as [| [k0 v0] m IH]; cbn [ods_get map fst]; [discriminate |].
  destruct (key_eqb k k0) eqn:E; intros H.
  - apply key_eqb_true_iff in E; left; symmetry; exact E.
  - right; apply IH; exact H.
Qed.

Lemma ods_set_entries (G : Key -> list Passenger) (K : list Key) (k0 : Key) X :
  NoDup K -> In k0 K ->
  ods_set k0 (mkOD (fst k0) (snd k0) X) (map (od_entry_with G) K) =
  map (od_entry_with (fun k => if key_eqb k0 k then X else G k)) K.
Proof.
  induction K as [| k K IH]; intros Hnd Hin; [destruct Hin |].
  apply NoDup_cons_iff in Hnd; destruct Hnd as [Hk Hnd].
  unfold od_entry_with in *; cbn [map ods_set].
  destruct (key_eqb k0 k) eqn:E.
  - apply key_eqb_true_iff in E; subst k0; f_equal.
    apply map_ext_in; intros k' Hk'.
    destruct (key_eqb k k') eqn:E'; [| reflexivity].
    apply key_eqb_true_iff in E'; subst k'; contradiction.
  - destruct Hin as [-> | Hin]; [rewrite key_eqb_refl in E; discriminate E |].
    rewrite IH by assumption; reflexivity.
Qed.

(** Loading a manifest whose every passenger has an OD, into ODs held as
    entries over distinct keys: each OD receives, in manifest order, the
    passengers of its key, and nothing is raised. *)
Lemma load_manifest_entries (L : list Leg) (n : nat) (G : Key -> list Passenger)
    (K : list Key) (ps : list Passenger) :
  NoDup K -> (forall p, In p ps -> In (passenger_key p) K) ->
  load_passenger_manifest (mkService L (map (od_entry_with G) K) n) ps =
  (mkService L (map (od_entry_with
                       (fun k => G k ++ filter (fun q => key_eqb (passenger_key q) k) ps)) K) n,
   None).
Proof.
  revert G; induction ps as [| p ps IH]; intros G Hnd Hps.
  - cbn [load_passenger_manifest filter]; do 2 f_equal.
    apply map_ext; intros k; unfold od_entry_with; rewrite app_nil_r; reflexivity.
  - cbn [load_passenger_manifest svc_ods svc_legs svc_next_id].
    rewrite ods_get_entries by (apply Hps; left; reflexivity).
    cbn [od_origin od_destination od_passengers].
    rewrite ods_set_entries by (assumption || (apply Hps; left; reflexivity)).
    rewrite IH by (assumption || (intros q Hq; apply Hps; right; exact Hq)).
    do 2 f_equal; apply map_ext; intros k; unfold od_entry_with; cbn [filter].
    destruct (key_eqb (passenger_key p) k) eqn:E; [| reflexivity].
    apply key_eqb_true_iff in E; subst k; rewrite <- app_assoc; reflexivity.
Qed.

Lemma existsb_key_in (x : Key) (L : list Key) :
  existsb (key_eqb x) L = true <-> In x L.
Proof.
  rewrite existsb_exists; split.
  - intros [y [Hy E]]; apply key_eqb_true_iff in E; subst y; exact Hy.
  - intros H; exists x; split; [exact H | apply key_eqb_refl].
Qed.

Lemma concat_filter_cons (L : list Key) (p : Passenger) (ps : list Passenger) :
  NoDup L ->
  Permutation
    (concat (map (fun k => filter (fun q => key_eqb (passenger_key q) k) (p :: ps)) L))
    ((if existsb (key_eqb (passenger_key p)) L then [p] else []) ++
     concat (map (fun k => filter (fun q => key_eqb (passenger_key q) k) ps) L)).
Proof.
  induction 1 as [| k L Hk Hnd IH]; [reflexivity |].
  cbn [map concat filter existsb].
  destruct (key_eqb (passenger_key p) k) eqn:E.
  - apply key_eqb_true_iff in E.
    assert (Hf : existsb (key_eqb (passenger_key p)) L = false).
    { destruct (existsb (key_eqb (passenger_key p)) L) eqn:F; [| reflexivity].
      apply existsb_key_in in F; rewrite E in F; contradiction. }
    rewrite Hf in IH; cbn [orb app] in IH |- *.
    constructor; apply Permutation_app_head; exact IH.
  - cbn [orb]; eapply perm_trans; [apply Permutation_app_head; exact IH |].
    destruct (existsb (key_eqb (passenger_key p)) L); cbn [app];
      [apply Permutation_sym, Permutation_middle | reflexivity].
Qed.

Lemma concat_filter_perm (L : list Key) (ps : list Passenger) :
  NoDup L ->
  Permutation
    (concat (map (fun k => filter (fun q => key_eqb (passenger_key q) k) ps) L))
    (filter (fun p => existsb (key_eqb (passenger_key p)) L) ps).
Proof.
  intros Hnd; induction ps as [| p ps IH].
  - cbn [filter]; clear Hnd; induction L as [| k L IHL]; [reflexivity | exact IHL].
  - eapply perm_trans; [apply concat_filter_cons; exact Hnd |].
    cbn [filter]; destruct (existsb (key_eqb (passenger_key p)) L); cbn [app];
      [constructor |]; exact IH.
Qed.

Lemma index_of_nth (l : list Station) :
  NoDup l -> forall a, a < length l -> index_of (nth a l 0) l = a.
Proof.
  induction l as [| y l IH]; intros Hnd a Ha; [cbn in Ha; lia |].
  apply NoDup_cons_iff in Hnd; destruct Hnd as [Hy Hnd].
  destruct a as [| a]; cbn [nth index_of]; [rewrite Nat.eqb_refl; reflexivity |].
  destruct (Nat.eqb (nth a l 0) y) eqn:E.
  - apply Nat.eqb_eq in E; exfalso; apply Hy; rewrite <- E; apply nth_In; cbn in Ha; lia.
  - f_equal; apply IH; [exact Hnd | cbn in Ha; lia].
Qed.

(** End to end: after loading an itinerary of distinct stations into a
    fresh service and then a manifest that raises nothing, the passengers of
    each leg are, up to order, exactly the manifest's passengers whose trip
    covers the leg: boarding at or before the leg's origin and leaving at or
    after its destination along the itinerary. *)
Theorem loaded_leg_passengers (itinerary : list Station) (passengers : list Passenger) :
  NoDup itinerary ->
  snd (load_passenger_manifest (load_itinerary new_service itinerary) passengers) = None ->
  let s := fst (load_passenger_manifest (load_itinerary new_service itinerary) passengers) in
  forall leg, In leg (svc_legs s) ->
  Permutation (leg_passengers s leg) (filter (covers itinerary leg) passengers).
Proof.
  intros Hnd Hok s leg Hleg.
  destruct (load_itinerary_state itinerary Hnd) as [Hods _].
  destruct (load_itinerary_legs_aux itinerary) as [Hlegs Hn].
  set (K := ordered_pairs itinerary) in *.
  assert (HK : NoDup K) by (apply ordered_pairs_nodup; exact Hnd).
  assert (Hkeys : forall p, In p passengers -> In (passenger_key p) K).
  { intros p Hp.
    destruct (ods_get (passenger_key p) (svc_ods (load_itinerary new_service itinerary)))
      as [od |] eqn:E.
    - rewrite Hods in E; apply ods_get_some_in in E.
      rewrite map_map in E; cbn [od_entry fst] in E; rewrite map_id in E; exact E.
    - exfalso; exact (proj2 (load_manifest_raises passengers _) (ex_intro _ p (conj Hp E)) Hok). }
  assert (Hload : load_itinerary new_service itinerary =
                  mkService (itinerary_legs itinerary) (map (od_entry_with (fun _ => [])) K)
                            (length itinerary - 1)).
  { rewrite <- Hlegs, <- Hn.
    change (map (od_entry_with (fun _ => [])) K) with (map od_entry K); rewrite <- Hods.
    destruct (load_itinerary new_service itinerary); reflexivity. }
  subst s; rewrite Hload in Hleg |- *.
  rewrite load_manifest_entries in Hleg |- * by assumption.
  cbn [fst svc_legs] in Hleg; unfold itinerary_legs in Hleg.
  apply in_map_iff in Hleg; destruct Hleg as [i [<- Hi]]; apply in_seq in Hi.
  unfold leg_passengers; rewrite leg_passengers_loop_filter; cbn [fst svc_ods].
  rewrite map_map, filter_map_swap, map_map.
  cbn [od_entry_with snd od_passengers app].
  eapply perm_trans; [apply concat_filter_perm, NoDup_filter; exact HK |].
  apply Permutation_refl'; apply filter_ext_in; intros p Hp.
  assert (Hex : forall c, In (passenger_key p) K ->
                existsb (key_eqb (passenger_key p)) (filter c K) = c (passenger_key p)).
  { intros c Hin; apply Bool.eq_iff_eq_true; rewrite existsb_key_in, filter_In; tauto. }
  rewrite Hex by (apply Hkeys; exact Hp).
  pose proof (Hkeys p Hp) as Hin; apply ordered_pairs_in in Hin.
  destruct Hin as [a [b [Hab Hkp]]].
  unfold od_legs; cbn [svc_legs od_origin od_destination].
  unfold passenger_key; rewrite Hkp; cbn [fst snd].
  rewrite itinerary_od_legs by assumption; rewrite leg_in_span.
  unfold covers; injection Hkp as -> ->.
  unfold itinerary_leg; cbn [leg_origin leg_destination].
  rewrite !index_of_nth by (assumption || lia).
  replace (a + (b - a)) with b by lia; reflexivity.
Qed.

Lemma loaded_leg_passengers_witness :
  NoDup [ply; lpd; msc] /\
  snd (load_passenger_manifest (load_itinerary new_service [ply; lpd; msc])
         example_manifest) = None /\
  let s := fst (load_passenger_manifest (load_itinerary new_service [ply; lpd; msc])
                  example_manifest) in
  forall leg, In leg (svc_legs s) ->
  Permutation (leg_passengers s leg) (filter (covers [ply; lpd; msc] leg) example_manifest).
Proof.
  assert (Hnd : NoDup [ply; lpd; msc])
    by (repeat constructor; simpl; intros H; repeat destruct H as [H | H]; discriminate || exact H).
  assert (Hok : snd (load_passenger_manifest (load_itinerary new_service [ply; lpd; msc])
                       example_manifest) = None) by (vm_compute; reflexivity).
  split; [exact Hnd | split; [exact Hok |]].
  exact (loaded_leg_passengers [ply; lpd; msc] example_manifest Hnd Hok).
Defined.

End ManifestLoading.

(** *** [OD.history]: independence from the passengers' order *)

Lemma strictly_sorted_unique (l1 l2 : list Z) :
  StronglySorted Z.lt l1 -> StronglySorted Z.lt l2 ->
  (forall x, In x l1 <-> In x l2) -> l1 = l2.
Proof.
  intros H1; revert l2; induction H1 as [| x l1 H1 IH Hx]; intros l2 H2 Hin.
  - destruct l2 as [| y l2]; [reflexivity |].
    exfalso; apply (proj2 (Hin y)); left; reflexivity.
  - destruct H2 as [| y l2 H2 Hy].
    + exfalso; apply (proj1 (Hin x)); left; reflexivity.
    + rewrite Forall_forall in Hx, Hy.
      assert (Exy : x = y).
      { destruct (proj1 (Hin x) (or_introl eq_refl)) as [E | Hx2]; [symmetry; exact E |].
        destruct (proj2 (Hin y) (or_introl eq_refl)) as [E | Hy1]; [exact E |].
        specialize (Hx y Hy1); specialize (Hy x Hx2); lia. }
      subst y; f_equal; apply IH; [exact H2 |].
      intros z; split; intros Hz.
      * destruct (proj1 (Hin z) (or_intror Hz)) as [E | Hz2]; [| exact Hz2].
        subst z; specialize (Hx x Hz); lia.
      * destruct (proj2 (Hin z) (or_intror Hz)) as [E | Hz1]; [| exact Hz1].
        subst z; specialize (Hy x Hz); lia.
Qed.

(** [history()] as one entry per group day, built from the passengers sold
    up to that day. *)
Lemma history_by_days (od : OD) :
  history od =
  map (fun d => (d, Z.of_nat (count_upto d (od_passengers od)), price_upto d (od_passengers od)))
      (map fst (groupby_day (sort_by_day (od_passengers od)))).
Proof.
  unfold history; set (ps := od_passengers od).
  pose proof (sort_by_day_perm ps) as Hperm.
  destruct (groupby_day_sorted _ (sort_by_day_sorted ps)) as [Hok Hcat].
  set (gs := groupby_day (sort_by_day ps)) in *.
  rewrite <- (history_loop_days (0, 0)), map_map.
  rewrite <- (map_id (history_loop (0, 0) gs)) at 1.
  apply map_ext_in; intros t Ht.
  destruct (history_loop_values gs Hok (0, 0) t Ht) as [H1 H2].
  rewrite Hcat in H1, H2; cbn [fst snd] in H1, H2.
  destruct (upto_perm (triplet_day t) _ _ Hperm) as [P1 P2].
  rewrite <- P1 in H1; rewrite <- P2 in H2.
  destruct t as [[d c] m]; unfold triplet_count, triplet_money, triplet_day in *.
  cbn [fst snd] in *; rewrite H1, H2; f_equal; f_equal; lia.
Qed.

Lemma history_group_days (ps : list Passenger) :
  StronglySorted Z.lt (map fst (groupby_day (sort_by_day ps))) /\
  (forall d, In d (map fst (groupby_day (sort_by_day ps))) <->
             exists p, In p ps /\ sale_day_x p = d).
Proof.
  pose proof (sort_by_day_perm ps) as Hperm.
  destruct (groupby_day_sorted _ (sort_by_day_sorted ps)) as [Hok Hcat].
  set (gs := groupby_day (sort_by_day ps)) in *.
  split; [exact (proj2 Hok) |].
  intros d; split.
  - intros Hd; apply in_map_iff in Hd; destruct Hd as [[k g] [Ek Hin]]; cbn [fst] in Ek; subst k.
    destruct Hok as [Hg _]; rewrite Forall_forall in Hg; destruct (Hg _ Hin) as [Hgne Hall].
    cbn [snd fst] in Hgne, Hall; destruct g as [| q g]; [contradiction |].
    apply Forall_cons_iff in Hall; destruct Hall as [Hq _].
    exists q; split; [| exact Hq].
    apply (Permutation_in _ (Permutation_sym Hperm)); rewrite <- Hcat.
    apply in_concat; exists (q :: g); split; [| left; reflexivity].
    apply in_map_iff; exists (d, q :: g); split; [reflexivity | exact Hin].
  - intros [p [Hp <-]]; apply groups_ok_members; [exact Hok |].
    rewrite Hcat; apply (Permutation_in _ Hperm); exact Hp.
Qed.

(** [history()] depends only on the multiset of the OD's passengers, not on
    the order in which they were appended: two ODs whose passenger lists are
    permutations of each other have the same history. *)
Theorem history_permutation_invariant (od od' : OD) :
  Permutation (od_passengers od) (od_passengers od') -> history od = history od'.
Proof.
  intros Hperm; rewrite (history_by_days od), (history_by_days od').
  destruct (history_group_days (od_passengers od)) as [S1 M1].
  destruct (history_group_days (od_passengers od')) as [S2 M2].
  rewrite (strictly_sorted_unique _ _ S1 S2).
  - apply map_ext; intros d.
    destruct (upto_perm d _ _ Hperm) as [P1 P2]; rewrite P1, P2; reflexivity.
  - intros d; rewrite M1, M2; split; intros [p [Hp Hd]]; exists p; split; try exact Hd.
    + exact (Permutation_in _ Hperm Hp).
    + exact (Permutation_in _ (Permutation_sym Hperm) Hp).
Qed.

Lemma history_permutation_invariant_witness :
  Permutation (od_passengers example_od) (od_passengers (mkOD ply lpd (rev (firstn 4 example_manifest)))) /\
  history example_od = history (mkOD ply lpd (rev (firstn 4 example_manifest))).
Proof.
  assert (Hp : Permutation (od_passengers example_od)
                 (od_passengers (mkOD ply lpd (rev (firstn 4 example_manifest)))))
    by (apply Permutation_rev).
  split; [exact Hp |].
  exact (history_permutation_invariant example_od _ Hp).
Defined.

(** *** [Service.load_itinerary]: the ODs of any itinerary *)

Section ItineraryOds.
Local Open Scope nat_scope.

Lemma ods_set_keys (k k' : Key) (v : OD) (m : list (Key * OD)) :
  In k' (map fst (ods_set k v m)) <-> k = k' \/ In k' (map fst m).
Proof.
  induction m as [| [k0 v0] m IH]; cbn [ods_set map fst In]; [tauto |].
  destruct (key_eqb k k0) eqn:E; cbn [map fst In].
  - apply key_eqb_true_iff in E; subst k0; tauto.
  - rewrite IH; tauto.
Qed.

Lemma ods_set_fresh (k : Key) (m : list (Key * OD)) :
  fresh_ods m -> fresh_ods (ods_set k (mkOD (fst k) (snd k) []) m).
Proof.
  induction m as [| [k0 v0] m IH]; intros [Hv Hnd]; cbn [ods_set].
  - split; [repeat constructor | repeat constructor; intros []].
  - apply Forall_cons_iff in Hv; destruct Hv as [Hv0 Hv]; cbn [map fst] in Hnd.
    apply NoDup_cons_iff in Hnd; destruct Hnd as [Hk0 Hnd].
    destruct (key_eqb k k0) eqn:E.
    + apply key_eqb_true_iff in E; subst k0.
      split; [constructor; [reflexivity | exact Hv] | constructor; assumption].
    + destruct (IH (conj Hv Hnd)) as [Hv' Hnd'].
      split; [constructor; assumption |].
      cbn [map fst]; constructor; [| exact Hnd'].
      rewrite ods_set_keys; intros [-> | H]; [rewrite key_eqb_refl in E; discriminate E | contradiction].
Qed.

Lemma inner_loop_fresh (x : Station) (prevs : list Station) :
  forall m, fresh_ods m ->
  let m' := fold_left (fun m prev => ods_set (prev, x) (mkOD prev x []) m) prevs m in
  fresh_ods m' /\
  (forall k, In k (map fst m') <-> In k (map fst m) \/ In k (map (fun p => (p, x)) prevs)).
Proof.
  induction prevs as [| p prevs IH]; intros m Hm m'; subst m'; cbn [fold_left map In].
  - split; [exact Hm | tauto].
  - destruct (IH _ (ods_set_fresh (p, x) m Hm)) as [H1 H2].
    split; [exact H1 |]; intros k; rewrite H2, ods_set_keys; tauto.
Qed.

Lemma load_itinerary_fresh (itinerary : list Station) :
  fresh_ods (svc_ods (load_itinerary new_service itinerary)) /\
  forall k, In k (map fst (svc_ods (load_itinerary new_service itinerary))) <->
            In k (ordered_pairs itinerary).
Proof.
  induction itinerary as [| x pre IH] using rev_ind.
  - split; [split; constructor | reflexivity].
  - rewrite load_itinerary_snoc, ordered_pairs_snoc; unfold load_itinerary_step.
    destruct (Nat.eqb (length pre) 0) eqn:E0.
    + apply Nat.eqb_eq, length_zero_iff_nil in E0; subst pre.
      split; [split; constructor | reflexivity].
    + rewrite firstn_all; cbn [svc_ods].
      destruct IH as [Hf Hk].
      destruct (inner_loop_fresh x pre _ Hf) as [H1 H2].
      split; [exact H1 |]; intros k; rewrite H2, Hk, in_app_iff; reflexivity.
Qed.

(** For every itinerary, even one that repeats a station: [service.ods]
    has distinct keys, which are exactly the pairs
    [(itinerary[i], itinerary[j])] with [i < j]; each OD carries its key's
    origin and destination and no passenger (a pair met again is replaced
    by a fresh OD); and there are at most [N * (N - 1) / 2] of them, fewer
    when stations repeat. *)
Theorem load_itinerary_ods (itinerary : list Station) :
  let ods := svc_ods (load_itinerary new_service itinerary) in
  let N := length itinerary in
  NoDup (map fst ods) /\
  (forall k, In k (map fst ods) <->
     exists i j, i < j < N /\ k = (nth i itinerary 0, nth j itinerary 0)) /\
  Forall (fun kv => snd kv = mkOD (fst (fst kv)) (snd (fst kv)) []) ods /\
  2 * length ods <= N * (N - 1).
Proof.
  intros ods N; subst ods N.
  destruct (load_itinerary_fresh itinerary) as [[Hv Hnd] Hk].
  split; [exact Hnd |]; split.
  - intros [a b]; rewrite Hk; apply ordered_pairs_in.
  - split; [exact Hv |].
    rewrite <- ordered_pairs_length, <- (length_map fst).
    apply Nat.mul_le_mono_l, NoDup_incl_length; [exact Hnd |].
    intros k Hin; apply Hk; exact Hin.
Qed.

End ItineraryOds.

(** *** [Leg.passengers]: identity of legs *)

Lemma legs_until_incl (d : Station) (legs : list Leg) : incl (legs_until d legs) legs.
Proof.
  induction legs as [| l legs IH]; cbn [legs_until]; [apply incl_refl |].
  destruct (Nat.eqb (leg_origin l) d); [apply incl_nil_l |].
  apply incl_cons; [left; reflexivity | apply incl_tl; exact IH].
Qed.

Lemma od_legs_from_incl (o d : Station) (legs : list Leg) : incl (od_legs_from o d legs) legs.
Proof.
  induction legs as [| l legs IH]; cbn [od_legs_from]; [apply incl_refl |].
  destruct (Nat.eqb (leg_origin l) o); [| apply incl_tl; exact IH].
  apply incl_cons; [left; reflexivity | apply incl_tl, legs_until_incl].
Qed.

(** [Leg.passengers] tests leg identity, not endpoints: a [Leg] object
    that is not one of the service's legs, even one with the same origin and
    destination as a service leg, has no passengers. *)
Theorem leg_passengers_foreign_leg (s : Service) (leg : Leg) :
  Forall (fun l => leg_id l <> leg_id leg) (svc_legs s) -> leg_passengers s leg = [].
Proof.
  intros H; rewrite Forall_forall in H.
  unfold leg_passengers; rewrite leg_passengers_loop_filter.
  assert (Hf : forall od, leg_in leg (od_legs s od) = false).
  { intros od; unfold leg_in; apply not_true_iff_false; rewrite existsb_exists.
    intros [l [Hl E]]; apply Nat.eqb_eq in E.
    exact (H l (od_legs_from_incl _ _ _ l Hl) E). }
  induction (map snd (svc_ods s)) as [| od ods IH]; cbn [filter]; [reflexivity |].
  rewrite Hf; exact IH.
Qed.

Lemma leg_passengers_foreign_leg_witness :
  Forall (fun l => leg_id l <> leg_id (mkLeg 7 ply lpd)) (svc_legs example_loaded) /\
  map leg_ends (svc_legs example_loaded) = [(ply, lpd); (lpd, msc)] /\
  length (leg_passengers example_loaded (nth 0 (svc_legs example_loaded) (mkLeg 0%nat 0%nat 0%nat))) = 5%nat /\
  leg_passengers example_loaded (mkLeg 7 ply lpd) = [].
Proof.
  assert (H : Forall (fun l => leg_id l <> leg_id (mkLeg 7 ply lpd)) (svc_legs example_loaded))
    by (vm_compute; repeat constructor; intros E; discriminate E).
  split; [exact H | split; [vm_compute; reflexivity | split; [vm_compute; reflexivity |]]].
  exact (leg_passengers_foreign_leg example_loaded (mkLeg 7 ply lpd) H).
Defined.

(** *** Loading a manifest into a loaded itinerary *)

Section ItineraryThenManifest.
Local Open Scope nat_scope.

(** On a service freshly loaded with any itinerary, loading a manifest
    raises nothing exactly when every passenger travels forward along the
    itinerary: its (origin, destination) is [(itinerary[i], itinerary[j])]
    for some [i < j]; a backward trip or an unknown station raises
    [KeyError]. *)
Theorem loaded_manifest_clean_iff (itinerary : list Station) (passengers : list Passenger) :
  snd (load_passenger_manifest (load_itinerary new_service itinerary) passengers) = None <->
  Forall (fun p => exists i j, i < j < length itinerary /\
                     passenger_key p = (nth i itinerary 0, nth j itinerary 0)) passengers.
Proof.
  destruct (load_itinerary_fresh itinerary) as [_ Hk].
  rewrite Forall_forall; split.
  - intros Hok p Hp.
    destruct (ods_get (passenger_key p) (svc_ods (load_itinerary new_service itinerary)))
      as [od |] eqn:E.
    + apply ods_get_some_in, Hk, ordered_pairs_in in E.
      destruct E as [i [j [Hij E]]]; exists i, j; split; [exact Hij |].
      unfold passenger_key in *; exact E.
    + exfalso; exact (proj2 (load_manifest_raises passengers _) (ex_intro _ p (conj Hp E)) Hok).
  - intros Hall.
    destruct (snd (load_passenger_manifest (load_itinerary new_service itinerary) passengers))
      eqn:E; [| reflexivity].
    exfalso.
    assert (Hne : snd (load_passenger_manifest (load_itinerary new_service itinerary)
                         passengers) <> None) by (rewrite E; discriminate).
    apply load_manifest_raises in Hne; destruct Hne as [p [Hp Hn]].
    apply ods_get_none_iff in Hn; apply Hn, Hk.
    destruct (Hall p Hp) as [i [j [Hij Hkey]]]; rewrite Hkey.
    apply ordered_pairs_in; exists i, j; split; [exact Hij | reflexivity].
Qed.

Lemma loaded_manifest_clean_iff_witness :
  (snd (load_passenger_manifest (load_itinerary new_service [ply; lpd; msc])
          [mkPassenger lpd ply (-3) 10]) = None <->
   Forall (fun p => exists i j, i < j < length [ply; lpd; msc] /\
                      passenger_key p = (nth i [ply; lpd; msc] 0, nth j [ply; lpd; msc] 0))
          [mkPassenger lpd ply (-3) 10]) /\
  snd (load_passenger_manifest (load_itinerary new_service [ply; lpd; msc])
         [mkPassenger lpd ply (-3) 10]) = Some (KeyError (lpd, ply)).
Proof.
  split; [exact (loaded_manifest_clean_iff [ply; lpd; msc] [mkPassenger lpd ply (-3) 10]) |].
  vm_compute; reflexivity.
Defined.

(** After loading an itinerary of distinct stations into a fresh service
    and then a manifest that raises nothing, the service is fully
    determined: its legs are those of the itinerary, and [service.ods]
    holds, in key order, each forward pair's OD with the manifest's
    passengers of that pair in manifest order. *)
Theorem loaded_manifest_state (itinerary : list Station) (passengers : list Passenger) :
  NoDup itinerary ->
  snd (load_passenger_manifest (load_itinerary new_service itinerary) passengers) = None ->
  let s := fst (load_passenger_manifest (load_itinerary new_service itinerary) passengers) in
  svc_legs s = itinerary_legs itinerary /\
  svc_ods s =
    map (fun k => (k, mkOD (fst k) (snd k)
                          (filter (fun q => key_eqb (passenger_key q) k) passengers)))
        (ordered_pairs itinerary).
Proof.
  intros Hnd Hok s.
  destruct (load_itinerary_state itinerary Hnd) as [Hods _].
  destruct (load_itinerary_legs_aux itinerary) as [Hlegs Hn].
  destruct (load_itinerary_fresh itinerary) as [_ Hk].
  assert (Hkeys : forall p, In p passengers -> In (passenger_key p) (ordered_pairs itinerary)).
  { intros p Hp.
    destruct (ods_get (passenger_key p) (svc_ods (load_itinerary new_service itinerary)))
      as [od |] eqn:E.
    - apply Hk; apply ods_get_some_in in E; exact E.
    - exfalso; exact (proj2 (load_manifest_raises passengers _) (ex_intro _ p (conj Hp E)) Hok). }
  assert (Hload : load_itinerary new_service itinerary =
                  mkService (itinerary_legs itinerary)
                            (map (od_entry_with (fun _ => [])) (ordered_pairs itinerary))
                            (length itinerary - 1)).
  { rewrite <- Hlegs, <- Hn.
    change (map (od_entry_with (fun _ => [])) (ordered_pairs itinerary))
      with (map od_entry (ordered_pairs itinerary)); rewrite <- Hods.
    destruct (load_itinerary new_service itinerary); reflexivity. }
  subst s; rewrite Hload, load_manifest_entries.
  - split; [reflexivity | reflexivity].
  - apply ordered_pairs_nodup; exact Hnd.
  - exact Hkeys.
Qed.

Lemma loaded_manifest_state_witness :
  NoDup [ply; lpd; msc] /\
  snd (load_passenger_manifest (load_itinerary new_service [ply; lpd; msc])
         example_manifest) = None /\
  let s := fst (load_passenger_manifest (load_itinerary new_service [ply; lpd; msc])
                  example_manifest) in
  svc_legs s = itinerary_legs [ply; lpd; msc] /\
  svc_ods s =
    map (fun k => (k, mkOD (fst k) (snd k)
                          (filter (fun q => key_eqb (passenger_key q) k) example_manifest)))
        (ordered_pairs [ply; lpd; msc]).
Proof.
  assert (Hnd : NoDup [ply; lpd; msc])
    by (repeat constructor; simpl; intros H; repeat destruct H as [H | H]; discriminate || exact H).
  assert (Hok : snd (load_passenger_manifest (load_itinerary new_service [ply; lpd; msc])
                       example_manifest) = None) by (vm_compute; reflexivity).
  split; [exact Hnd | split; [exact Hok |]].
  exact (loaded_manifest_state [ply; lpd; msc] example_manifest Hnd Hok).
Defined.

End ItineraryThenManifest.
